(** * Python_Spacecraft: the two-body integrator of [utils.py]

    A shallow embedding of the numerical core of [utils.py]:
    the acceleration closure, the Euler and RK4 steppers, the in-place
    time-marching loop and the aphelion search, together with the
    helpers that read the configuration (colours, initial conditions,
    time settings) and size the trajectory buffers.  [load_config] and
    [plot_orbit_3d] are input and output only and are left out.

    Numbers are binary64 values ([PrimFloat.float]), which is what both
    Python's [float] and numpy's [float64] are; a JSON number is a
    Python int or float.  Exceptions are an explicit [result]; the two
    trajectory arrays that [run_integration] mutates live in a store
    that is threaded through the loop and is still observable after an
    exception.  The store also records every call of the acceleration
    function, so that the number of evaluations per step can be stated.

    What stands for library code: [np.linalg.norm] of a one-dimensional
    row is [sqrt(x.dot(x))], the dot product accumulating with a fused
    multiply-add, while along [axis=1] it is the square root of the sum
    of the rounded squares; C's [pow] is a parameter;
    [np.argmax] is the scan numpy runs over a float64 array; the length
    of [np.arange] is the ceiling numpy computes; a string is its UTF-8
    bytes, and [str.lower] is modelled on ASCII strings. *)

From Stdlib Require Import ZArith List String Ascii Floats Lia.
From stdpp Require Import base list gmap strings.

Local Open Scope Z_scope.
Local Open Scope nat_scope.

(** ** Exceptions *)

Inductive exn : Type :=
  | ValueError (msg : string)
  | IndexError
  | KeyError (key : string)
  | TypeError
  | OverflowError
  | ZeroDivisionError.

Inductive result (A : Type) : Type :=
  | Ok (a : A)
  | Raise (e : exn).
Arguments Ok {A} a.
Arguments Raise {A} e.

Definition rbind {A B} (m : result A) (k : A -> result B) : result B :=
  match m with
  | Ok a => k a
  | Raise e => Raise e
  end.

Declare Scope res_scope.
Delimit Scope res_scope with res.
Notation "'do' x <- m ; k" := (rbind m (fun x => k))
  (at level 10, x pattern, m at level 100, k at level 200) : res_scope.

(** ** The fused multiply-add *)

(** [x * y + z] with one rounding, which is what the dot product of the
    BLAS library computes at each step [dot += y[i] * x[i]].  The
    product of two finite values is kept exact and added to [z]; when
    [z] is a zero the sum is the product, rounded once. *)
Definition SFfma (x y z : spec_float) : spec_float :=
  match x, y with
  | S754_finite sx mx ex, S754_finite sy my ey =>
      match z with
      | S754_nan => S754_nan
      | S754_infinity _ => z
      | S754_zero _ => SFmul prec emax x y
      | S754_finite _ _ _ =>
          SFadd prec emax
            (S754_finite (xorb sx sy) (mx * my)%positive (ex + ey)%Z) z
      end
  | _, _ => SFadd prec emax (SFmul prec emax x y) z
  end.

Definition fma (x y z : float) : float :=
  SF2Prim (SFfma (Prim2SF x) (Prim2SF y) (Prim2SF z)).

(** ** Vectors: one row of an (N, 2) float64 array *)

Definition vec : Type := float * float.

Module Vec.
Local Open Scope float_scope.

(** [a + b] on two rows. *)
Definition add (a b : vec) : vec := (fst a + fst b, snd a + snd b).
(** [a * s]: array times scalar. *)
Definition mulr (a : vec) (s : float) : vec := (fst a * s, snd a * s).
(** [s * a]: scalar times array. *)
Definition mull (s : float) (a : vec) : vec := (s * fst a, s * snd a).
(** [np.linalg.norm(r, axis=1)] on one row: the squares are rounded,
    then added. *)
Definition norm (a : vec) : float := sqrt (fst a * fst a + snd a * snd a).
(** [a.dot(b)] on two rows: the BLAS dot product, which starts from 0
    and accumulates with a fused multiply-add. *)
Definition dot (a b : vec) : float :=
  fma (snd b) (snd a) (fma (fst b) (fst a) 0).
(** [np.linalg.norm(a)] of a one-dimensional array: [sqrt(a.dot(a))]. *)
Definition norm_1d (a : vec) : float := sqrt (dot a a).
(** A row of [np.zeros]. *)
Definition zeros : vec := (0, 0).
End Vec.

Declare Scope vec_scope.
Delimit Scope vec_scope with V.
Infix "+" := Vec.add : vec_scope.
Notation "a *~ s" := (Vec.mulr a s) (at level 40, left associativity) : vec_scope.
Notation "s ~* a" := (Vec.mull s a) (at level 40, left associativity) : vec_scope.

(** ** The store: the two arrays passed by reference, and a record of
    the positions at which the acceleration function has been called *)

Record store : Type := mkStore {
  r_buf : list vec;
  v_buf : list vec;
  acc_calls : list vec
}.

Definition Run (A : Type) : Type := store -> result A * store.

Definition ret {A} (a : A) : Run A := fun st => (Ok a, st).
Definition raise {A} (e : exn) : Run A := fun st => (Raise e, st).
Definition bind {A B} (m : Run A) (k : A -> Run B) : Run B :=
  fun st =>
    match m st with
    | (Ok a, st') => k a st'
    | (Raise e, st') => (Raise e, st')
    end.

Declare Scope run_scope.
Delimit Scope run_scope with run.
Notation "'do' x <- m ; k" := (bind m (fun x => k))
  (at level 10, x pattern, m at level 100, k at level 200) : run_scope.
Notation "'exec' m ; k" := (bind m (fun _ => k))
  (at level 10, m at level 100, k at level 200) : run_scope.

(** [a[i]] for a non-negative index [i]. *)
Definition getitem {A} (a : list A) (i : nat) : result A :=
  match a !! i with
  | Some x => Ok x
  | None => Raise IndexError
  end.

(** [a[i] = x] for a non-negative index [i]; out of range it raises and
    leaves [a] as it was. *)
Definition setitem {A} (a : list A) (i : nat) (x : A) : result (list A) :=
  if decide (i < length a) then Ok (<[i := x]> a) else Raise IndexError.

(** [len(r)] *)
Definition len_r : Run nat := fun st => (Ok (length (r_buf st)), st).

(** [r[i]] and [v[i]] *)
Definition get_r (i : nat) : Run vec := fun st => (getitem (r_buf st) i, st).
Definition get_v (i : nat) : Run vec := fun st => (getitem (v_buf st) i, st).

(** [r[i] = x] and [v[i] = x]: in-place row assignment. *)
Definition set_r (i : nat) (x : vec) : Run unit :=
  fun st =>
    match setitem (r_buf st) i x with
    | Ok r' => (Ok tt, mkStore r' (v_buf st) (acc_calls st))
    | Raise e => (Raise e, st)
    end.
Definition set_v (i : nat) (x : vec) : Run unit :=
  fun st =>
    match setitem (v_buf st) i x with
    | Ok v' => (Ok tt, mkStore (r_buf st) v' (acc_calls st))
    | Raise e => (Raise e, st)
    end.

(** A Python callable from a position to an acceleration; it may raise. *)
Definition callable : Type := vec -> result vec.

(** [acc_fn(x)]: the call is recorded, an exception of the callee
    propagates. *)
Definition call (acc_fn : callable) (x : vec) : Run vec :=
  fun st =>
    (acc_fn x, mkStore (r_buf st) (v_buf st) (acc_calls st ++ [x])).

(** A callable that never raises. *)
Definition pure_fn (a : vec -> vec) : callable := fun x => Ok (a x).

(** ** create_acceleration_fn *)

Section Acceleration.
Local Open Scope float_scope.

(** The C library's [pow], which numpy applies for [norm**3]; it is
    not part of the repository. *)
Variable pow : float -> float -> float.

(** numpy's float64 division: a zero divisor gives a warning and an
    infinity or a NaN, never an exception. *)
Definition np_truediv (x y : float) : result float := Ok (x / y).

Definition create_acceleration_fn (G M : float) : callable :=
  fun r_vec =>
    (let norm := Vec.norm_1d r_vec in
     do q <- np_truediv (G * M) (pow norm 3);
     Ok ((- q) ~* r_vec)%V)%res.
End Acceleration.

(** ** euler_step and rk4_step *)

Section Steppers.
Local Open Scope float_scope.
Local Open Scope run_scope.

Definition euler_step (r_old v_old : vec) (dt : float) (acc_fn : callable)
  : Run (vec * vec) :=
  do a_old <- call acc_fn r_old ;
  let r_new := (r_old + v_old *~ dt)%V in
  let v_new := (v_old + a_old *~ dt)%V in
  ret (r_new, v_new).

Definition rk4_step (r_old v_old : vec) (dt : float) (acc_fn : callable)
  : Run (vec * vec) :=
  do k1_v <- call acc_fn r_old ;
  let k1_r := v_old in
  let k2_r := (v_old + k1_v *~ (dt / 2))%V in
  do k2_v <- call acc_fn (r_old + k1_r *~ (dt / 2))%V ;
  let k3_r := (v_old + k2_v *~ (dt / 2))%V in
  do k3_v <- call acc_fn (r_old + k2_r *~ (dt / 2))%V ;
  let k4_r := (v_old + k3_v *~ dt)%V in
  do k4_v <- call acc_fn (r_old + k3_r *~ dt)%V ;
  let r_new :=
    (r_old + (dt / 6) ~* (k1_r + 2 ~* k2_r + 2 ~* k3_r + k4_r))%V in
  let v_new :=
    (v_old + (dt / 6) ~* (k1_v + 2 ~* k2_v + 2 ~* k3_v + k4_v))%V in
  ret (r_new, v_new).
End Steppers.

(** ** str.lower and str.isascii *)

(** A [str] is modelled by its UTF-8 bytes.  [lower] changes the bytes
    of the ASCII capitals only, which is what [str.lower] does on an
    ASCII string; on other strings Python also maps the capitals
    outside ASCII (the Kelvin sign U+212A becomes "k"), so a statement
    that depends on what [lower] returns is made for ASCII names. *)
Fixpoint isascii (s : string) : bool :=
  match s with
  | EmptyString => true
  | String c s' => (nat_of_ascii c <? 128)%nat && isascii s'
  end.

Definition lower_ascii (c : ascii) : ascii :=
  let n := nat_of_ascii c in
  if (65 <=? n)%nat && (n <=? 90)%nat then ascii_of_nat (n + 32) else c.

Fixpoint lower (s : string) : string :=
  match s with
  | EmptyString => EmptyString
  | String c s' => String (lower_ascii c) (lower s')
  end.

(** ** run_integration *)

Section Integration.
Local Open Scope run_scope.

Definition unknown_method (method : string) : exn :=
  ValueError ("Unknown numerical method '" ++ method
              ++ "'. Use 'euler' or 'rk4'.")%string.

(** One pass through the body of the [for] loop. *)
Definition loop_body (method : string) (dt : float) (acc_fn : callable)
           (i : nat) : Run unit :=
  if String.eqb method "euler" then
    do r_old <- get_r (i - 1) ;
    do v_old <- get_v (i - 1) ;
    do (r_new, v_new) <- euler_step r_old v_old dt acc_fn ;
    exec set_r i r_new ;
    set_v i v_new
  else if String.eqb method "rk4" then
    do r_old <- get_r (i - 1) ;
    do v_old <- get_v (i - 1) ;
    do (r_new, v_new) <- rk4_step r_old v_old dt acc_fn ;
    exec set_r i r_new ;
    set_v i v_new
  else
    raise (unknown_method method).

Fixpoint for_each (idxs : list nat) (body : nat -> Run unit) : Run unit :=
  match idxs with
  | [] => ret tt
  | i :: rest => exec body i ; for_each rest body
  end.

(** [range(1, n)] *)
Definition range1 (n : nat) : list nat := seq 1 (n - 1).

Definition run_integration (method : string) (dt : float)
           (acc_fn : callable) : Run unit :=
  let method := lower method in
  do n <- len_r ;
  for_each (range1 n) (loop_body method dt acc_fn).
End Integration.

(** ** Python numbers, as [json.load] produces them *)

Inductive pynum : Type :=
  | PyInt (z : Z)
  | PyFloat (f : float).

(** The binary64 value nearest to an integer. *)
Definition Z2F (z : Z) : float := SF2Prim (binary_normalize prec emax z 0 false).

(** [float(n)]: an int too large for a binary64 raises. *)
Definition to_float (n : pynum) : result float :=
  match n with
  | PyFloat f => Ok f
  | PyInt z =>
      let f := Z2F z in
      if is_infinity f then Raise OverflowError else Ok f
  end.

(** The integer [-(-a // b)]. *)
Definition Zceil_div (a b : Z) : Z := (- ((- a) / b))%Z.

(** [math.ceil] and truncation of a finite binary64; [None] on an
    infinity or a NaN. *)
Definition SF_ceil (x : spec_float) : option Z :=
  match x with
  | S754_zero _ => Some 0%Z
  | S754_finite s m e =>
      Some (match e with
            | Zneg p => Zceil_div (cond_Zopp s (Zpos m)) (2 ^ Zpos p)
            | _ => cond_Zopp s (Zpos m) * 2 ^ e
            end)%Z
  | _ => None
  end.

Definition SF_trunc (x : spec_float) : option Z :=
  match x with
  | S754_zero _ => Some 0%Z
  | S754_finite s m e =>
      Some (match e with
            | Zneg p => cond_Zopp s (Zpos m / 2 ^ Zpos p)
            | _ => cond_Zopp s (Zpos m) * 2 ^ e
            end)%Z
  | _ => None
  end.

(** [int(x)] of a Python float. *)
Definition py_int (x : float) : result Z :=
  match SF_trunc (Prim2SF x) with
  | Some z => Ok z
  | None =>
      if is_nan x
      then Raise (ValueError "cannot convert float NaN to integer")
      else Raise OverflowError
  end.

Section PyArith.
Local Open Scope float_scope.
Local Open Scope res_scope.

(** [a * b] *)
Definition py_mul (a b : pynum) : result pynum :=
  match a, b with
  | PyInt x, PyInt y => Ok (PyInt (x * y))
  | _, _ =>
      do x <- to_float a;
      do y <- to_float b;
      Ok (PyFloat (x * y))
  end.

(** [a - b] *)
Definition py_sub (a b : pynum) : result pynum :=
  match a, b with
  | PyInt x, PyInt y => Ok (PyInt (x - y))
  | _, _ =>
      do x <- to_float a;
      do y <- to_float b;
      Ok (PyFloat (x - y))
  end.

(** [a + b] *)
Definition py_add (a b : pynum) : result pynum :=
  match a, b with
  | PyInt x, PyInt y => Ok (PyInt (x + y))
  | _, _ =>
      do x <- to_float a;
      do y <- to_float b;
      Ok (PyFloat (x + y))
  end.

(** [a / b]: Python's true division raises on a zero divisor.  Two
    ints are divided as binary64 values, which is the quotient Python
    returns whenever both convert exactly (magnitudes up to 2^53). *)
Definition py_truediv (a b : pynum) : result float :=
  do x <- to_float a;
  do y <- to_float b;
  if is_zero y then Raise ZeroDivisionError else Ok (x / y).
End PyArith.

(** ** np.arange(start, stop, step) *)

Section Arange.
Local Open Scope res_scope.

Definition is_float (n : pynum) : bool :=
  match n with
  | PyFloat _ => true
  | PyInt _ => false
  end.

(** [n != 0] *)
Definition py_nonzero (n : pynum) : bool :=
  match n with
  | PyInt z => negb (z =? 0)%Z
  | PyFloat f => negb (is_zero f)
  end.

Definition signbit (f : float) : bool :=
  match Prim2SF f with
  | S754_zero s | S754_infinity s | S754_finite s _ _ => s
  | S754_nan => false
  end.

(** An OverflowError met while the length is computed is reported by
    [np.arange] as a ValueError. *)
Definition as_size_error {A} (m : result A) : result A :=
  match m with
  | Raise OverflowError => Raise (ValueError "Maximum allowed size exceeded")
  | other => other
  end.

(** The length numpy computes: the ceiling of [(stop - start) / step],
    which has to fit a machine integer, and an empty array when that
    is not positive.  A quotient that is zero for a span that is not
    stands for one entry, or for none when its sign is negative. *)
Definition calc_length (start stop step : pynum) : result nat :=
  do span <- py_sub stop start;
  do q <- py_truediv span step;
  match SF_ceil (Prim2SF q) with
  | Some n =>
      if ((n <? - 2 ^ 63) || (2 ^ 63 <? n))%Z
      then Raise OverflowError
      else if is_zero q && py_nonzero span
      then Ok (if signbit q then 0 else 1)
      else Ok (Z.to_nat n)
  | None =>
      if is_nan q
      then Raise (ValueError "arange: cannot compute length")
      else Raise OverflowError
  end.

Definition arange_len (start stop step : pynum) : result nat :=
  as_size_error (calc_length start stop step).

(** The entries.  numpy stores [start] and [start + step], both
    computed by Python and converted to the element type, and fills
    the rest as [r0 + i * (r1 - r0)] in the arithmetic of that type:
    float64 as soon as one of the three arguments is a float, and
    machine integers otherwise (taken here without their bound). *)
Definition np_arange (start stop step : pynum) : result (list pynum) :=
  do n <- arange_len start stop step;
  match n with
  | O => Ok []
  | S n' =>
      do next <- as_size_error (py_add start step);
      match start, stop, step, next with
      | PyInt s, PyInt _, PyInt _, PyInt nx =>
          Ok (map (fun i => PyInt (s + Z.of_nat i * (nx - s))%Z) (seq 0 n))
      | _, _, _, _ =>
          do r0 <- to_float start;
          match n' with
          | O => Ok [PyFloat r0]
          | S n'' =>
              do r1 <- to_float next;
              let delta := (r1 - r0)%float in
              Ok (PyFloat r0 :: PyFloat r1
                    :: map (fun i => PyFloat
                                       (r0 + Z2F (Z.of_nat i) * delta)%float)
                           (seq 2 n''))
          end
      end
  end.
End Arange.

(** ** The configuration, a parsed JSON document *)

#[local] Set Warnings "-register-all".
Inductive json : Type :=
  | JNull
  | JBool (b : bool)
  | JNum (n : pynum)
  | JStr (s : string)
  | JArr (items : list json)
  | JObj (fields : gmap string json).

(** A value used in arithmetic: [bool] is a subclass of [int]. *)
Definition as_number (j : json) : result pynum :=
  match j with
  | JNum n => Ok n
  | JBool b => Ok (PyInt (if b then 1 else 0))
  | _ => Raise TypeError
  end.

(** [d[key]] on a parsed value. *)
Definition subscript (d : json) (key : string) : result json :=
  match d with
  | JObj fields =>
      match fields !! key with
      | Some x => Ok x
      | None => Raise (KeyError key)
      end
  | _ => Raise TypeError
  end.

(** ** get_time_settings *)

Section TimeSettings.
Local Open Scope res_scope.

(** [cfg["numerical_method_settings"]["time_step"]] when the first key
    is present, else 3600. *)
Definition time_step_of (cfg : gmap string json) : result json :=
  match cfg !! "numerical_method_settings" with
  | Some settings => subscript settings "time_step"
  | None => Ok (JNum (PyInt 3600))
  end.

(** [planet_cfg.get("orbital_period_days",
                    cfg.get("default_simulation_days", 365))] *)
Definition sim_days_of (cfg planet_cfg : gmap string json) : json :=
  default (default (JNum (PyInt 365)) (cfg !! "default_simulation_days"))
          (planet_cfg !! "orbital_period_days").

(** The step [np.arange] is given: [None] stands for a step of 1. *)
Definition arange_step (time_step : json) : result pynum :=
  match time_step with
  | JNull => Ok (PyInt 1)
  | _ => as_number time_step
  end.

Definition get_time_settings (cfg planet_cfg : gmap string json)
  : result (json * list pynum) :=
  do time_step <- time_step_of cfg;
  let sim_days := sim_days_of cfg planet_cfg in
  do days <- as_number sim_days;
  do hours <- py_mul days (PyInt 24);
  do t_max <- py_mul hours (PyInt 3600);
  do step <- arange_step time_step;
  do t <- np_arange (PyInt 0) t_max step;
  Ok (time_step, t).
End TimeSettings.

(** ** initialize_arrays *)

Section Arrays.
Local Open Scope res_scope.

Definition initialize_arrays {T} (r0 v0 : vec) (t : list T)
  : result (list vec * list vec) :=
  let r := replicate (length t) Vec.zeros in
  let v := replicate (length t) Vec.zeros in
  do r <- setitem r 0 r0;
  do v <- setitem v 0 v0;
  Ok (r, v).
End Arrays.

(** ** np.argmax on a one-dimensional float64 array *)

Section Argmax.
Local Open Scope float_scope.

(** The scan after the first element: [mp] is the running maximum,
    [best] its index, [i] the index of the head of [l].  A NaN is
    maximal and ends the scan. *)
Fixpoint argmax_scan (mp : float) (best i : nat) (l : list float) : nat :=
  match l with
  | [] => best
  | x :: l' =>
      if negb (x <=? mp)
      then (if is_nan x then i else argmax_scan x i (S i) l')
      else argmax_scan mp best (S i) l'
  end.

Definition np_argmax (a : list float) : result nat :=
  match a with
  | [] => Raise (ValueError "attempt to get argmax of an empty sequence")
  | x :: l => Ok (if is_nan x then 0%nat else argmax_scan x 0 1 l)
  end.
End Argmax.

(** ** compute_aphelion *)

Section Aphelion.
Local Open Scope float_scope.
Local Open Scope res_scope.

(** The binary64 value of the literal [0.05]. *)
Definition five_percent : float := 0x1.999999999999ap-5.

(** [max(1, int(len(r) * 0.05))] *)
Definition cutoff_of (n : nat) : result nat :=
  do k <- py_int (Z2F (Z.of_nat n) * five_percent);
  Ok (Z.to_nat (Z.max 1 k)).

Definition compute_aphelion (r v : list vec) : result (float * vec * nat) :=
  let distances := map Vec.norm r in
  do idx_ap <- np_argmax distances;
  do idx_ap <-
    (if Nat.eqb idx_ap 0 then
       do cutoff <- cutoff_of (length r);
       do j <- np_argmax (drop cutoff distances);
       Ok (j + cutoff)%nat
     else Ok idx_ap);
  do pos_ap <- getitem distances idx_ap;
  do vel_ap <- getitem v idx_ap;
  Ok (pos_ap, vel_ap, idx_ap).
End Aphelion.

(** ** get_initial_conditions *)

Section InitialConditions.
Local Open Scope float_scope.
Local Open Scope res_scope.

(** [-a] on a number. *)
Definition py_neg (a : pynum) : pynum :=
  match a with
  | PyInt z => PyInt (- z)
  | PyFloat f => PyFloat (- f)
  end.

Definition get_initial_conditions (cfg : gmap string json)
           (planet_name : string) : result (vec * vec) :=
  do planets <- subscript (JObj cfg) "planets";
  do planet_cfg <- subscript planets planet_name;
  do r0_million_km <- subscript planet_cfg "position_at_perihelion";
  do v0_kms <- subscript planet_cfg "velocity_at_perihelion";
  do p <- as_number r0_million_km;
  do x <- py_mul p (PyFloat 1e9);
  do x <- to_float x;
  do w <- as_number v0_kms;
  do y <- py_mul (py_neg w) (PyFloat 1e3);
  do y <- to_float y;
  Ok ((x, 0), (0, y)).
End InitialConditions.

(** ** get_planet_colors *)

(** The configuration helpers call [dict.get] on parsed values, which
    adds AttributeError to the exceptions of the core. *)
Inductive py_exn : Type :=
  | CoreExn (e : exn)
  | AttributeError.

Inductive attempt (A : Type) : Type :=
  | Done (a : A)
  | Failed (e : py_exn).
Arguments Done {A} a.
Arguments Failed {A} e.

Definition abind {A B} (m : attempt A) (k : A -> attempt B) : attempt B :=
  match m with
  | Done a => k a
  | Failed e => Failed e
  end.

(** [d.get(key, {})]: only a dict has a [get]. *)
Definition get_or_empty (d : json) (key : string) : attempt json :=
  match d with
  | JObj fields => Done (default (JObj ∅) (fields !! key))
  | _ => Failed AttributeError
  end.

(** [{**a, **b}]: both have to be mappings, and [b] wins on a key that
    both have. *)
Definition merge_dicts (a b : json) : attempt (gmap string json) :=
  match a, b with
  | JObj ga, JObj gb => Done (gb ∪ ga)
  | _, _ => Failed (CoreExn TypeError)
  end.

Definition get_planet_colors (cfg : gmap string json) (planet_name : string)
  : attempt (gmap string json) :=
  let global_colors := default (JObj ∅) (cfg !! "colors") in
  match cfg !! "planets" with
  | None => Failed (CoreExn (KeyError "planets"))
  | Some planets =>
      abind (get_or_empty planets planet_name) (fun entry =>
      abind (get_or_empty entry "colors") (fun planet_colors =>
      merge_dicts global_colors planet_colors))
  end.

(** ** Reference values the loop is compared with *)

Section Reference.
Local Open Scope float_scope.

(** The store after recording calls at the positions [xs]. *)
Definition record_calls (st : store) (xs : list vec) : store :=
  mkStore (r_buf st) (v_buf st) (acc_calls st ++ xs).

(** The explicit Euler update as the specification writes it. *)
Definition euler_formula (dt : float) (a : vec -> vec) (s : vec * vec)
  : vec * vec :=
  let '(r, v) := s in
  ((r + v *~ dt)%V, (v + a r *~ dt)%V).

(** The four stages of RK4 as the specification writes them. *)
Definition rk4_formula (dt : float) (a : vec -> vec) (s : vec * vec)
  : vec * vec :=
  let '(r, v) := s in
  let k1_v := a r in
  let k1_r := v in
  let k2_r := (v + k1_v *~ (dt / 2))%V in
  let k2_v := a (r + k1_r *~ (dt / 2))%V in
  let k3_r := (v + k2_v *~ (dt / 2))%V in
  let k3_v := a (r + k2_r *~ (dt / 2))%V in
  let k4_r := (v + k3_v *~ dt)%V in
  let k4_v := a (r + k3_r *~ dt)%V in
  ((r + (dt / 6) ~* (k1_r + 2 ~* k2_r + 2 ~* k3_r + k4_r))%V,
   (v + (dt / 6) ~* (k1_v + 2 ~* k2_v + 2 ~* k3_v + k4_v))%V).

(** The positions at which one RK4 step evaluates the acceleration. *)
Definition rk4_points (dt : float) (a : vec -> vec) (s : vec * vec)
  : list vec :=
  let '(r, v) := s in
  let k1_v := a r in
  let k1_r := v in
  let k2_r := (v + k1_v *~ (dt / 2))%V in
  let k2_v := a (r + k1_r *~ (dt / 2))%V in
  let k3_r := (v + k2_v *~ (dt / 2))%V in
  [r; (r + k1_r *~ (dt / 2))%V; (r + k2_r *~ (dt / 2))%V;
   (r + k3_r *~ dt)%V].

Definition euler_points (s : vec * vec) : list vec := [fst s].

(** The states [s, f s, f (f s), ...], [n] of them. *)
Fixpoint orbit (f : vec * vec -> vec * vec) (n : nat) (s : vec * vec)
  : list (vec * vec) :=
  match n with
  | O => []
  | S n' => s :: orbit f n' (f s)
  end.

(** The stepper a lowercased method name selects in the loop. *)
Definition stepper_of (method : string)
  : vec -> vec -> float -> callable -> Run (vec * vec) :=
  if String.eqb method "euler" then euler_step else rk4_step.

Definition formula_of (method : string)
  : float -> (vec -> vec) -> vec * vec -> vec * vec :=
  if String.eqb method "euler" then euler_formula else rk4_formula.

Definition points_of (method : string) (dt : float) (a : vec -> vec)
  : vec * vec -> list vec :=
  if String.eqb method "euler" then euler_points else rk4_points dt a.

(** Acceleration evaluations per step. *)
Definition evals_per_step (method : string) : nat :=
  if String.eqb method "euler" then 1 else 4.

Definition accepted (method : string) : Prop :=
  method = "euler"%string \/ method = "rk4"%string.

(** [i] is the first index of a greatest element of [l]. *)
Definition first_max (l : list float) (i : nat) : Prop :=
  exists m,
    l !! i = Some m
    /\ (forall j y, l !! j = Some y -> PrimFloat.leb y m = true)
    /\ (forall j y, j < i -> l !! j = Some y -> PrimFloat.leb m y = false).
End Reference.

(** ** Predicates the properties are stated with *)

Section Predicates.

(** What no operation of the loop changes: the lengths of the two
    arrays, their rows 0, and the calls already recorded. *)
Definition keeps (st st' : store) : Prop :=
  (length (r_buf st') = length (r_buf st)
   /\ length (v_buf st') = length (v_buf st)
   /\ r_buf st' !! 0 = r_buf st !! 0
   /\ v_buf st' !! 0 = v_buf st !! 0
   /\ exists new, acc_calls st' = acc_calls st ++ new)%nat.

(** A positive float, or a positive int that converts to a float
    exactly. *)
Definition positive_number (n : pynum) : Prop :=
  match n with
  | PyInt z => (0 < z < 2 ^ 52)%Z
  | PyFloat f => PrimFloat.ltb 0 f = true
  end.

(** The sign bit of a float that is not a NaN. *)
Definition has_sign (s : bool) (x : spec_float) : Prop :=
  match x with
  | S754_zero s' | S754_infinity s' | S754_finite s' _ _ => s' = s
  | S754_nan => False
  end.
End Predicates.

(** ** Concrete inputs *)

Section Inputs.
Local Open Scope float_scope.
#[local] Set Warnings "-inexact-float".

(** The constants of [main.py]. *)
Definition G_main : float := 6.6743e-11.
Definition M_sun : float := 1.989e30.

(** A stand-in for [pow(x, 3.0)] that can be evaluated. *)
Definition cube (x y : float) : float := x * x * x.

(** A configuration with a time step of 7000 s over one day. *)
Definition cfg_coarse : gmap string json :=
  <["numerical_method_settings" :=
      JObj (<["time_step" := JNum (PyInt 7000)]> ∅)]>
    (<["default_simulation_days" := JNum (PyInt 1)]> ∅).

Definition no_planet_cfg : gmap string json := ∅.

(** A configuration in the shape [main.py] reads: one planet with its
    own colours, colours for every planet, and a time step. *)
Definition earth_colors : gmap string json := <["orbit" := JStr "blue"]> ∅.

Definition earth_entry : gmap string json :=
  <["position_at_perihelion" := JNum (PyFloat 147.1)]>
    (<["velocity_at_perihelion" := JNum (PyInt 30)]>
       (<["orbital_period_days" := JNum (PyInt 365)]>
          (<["colors" := JObj earth_colors]> ∅))).

Definition solar_planets : gmap string json :=
  <["earth" := JObj earth_entry]> ∅.

Definition shared_colors : gmap string json :=
  <["orbit" := JStr "grey"]> (<["sun" := JStr "yellow"]> ∅).

Definition cfg_solar : gmap string json :=
  <["planets" := JObj solar_planets]>
    (<["colors" := JObj shared_colors]>
       (<["numerical_method_settings" :=
            JObj (<["time_step" := JNum (PyInt 3600)]> ∅)]> ∅)).

(** Settings without a time step, and with a time step of zero. *)
Definition cfg_no_step : gmap string json :=
  <["numerical_method_settings" := JObj ∅]> ∅.

Definition cfg_zero_step : gmap string json :=
  <["numerical_method_settings" :=
      JObj (<["time_step" := JNum (PyInt 0)]> ∅)]> ∅.

(** A planet with a period of zero days, and one without a velocity. *)
Definition zero_period_entry : gmap string json :=
  <["orbital_period_days" := JNum (PyInt 0)]> ∅.

Definition position_only_entry : gmap string json :=
  <["position_at_perihelion" := JNum (PyInt 147)]> ∅.

Definition cfg_position_only : gmap string json :=
  <["planets" := JObj (<["earth" := JObj position_only_entry]> ∅)]> ∅.

(** A callable that always fails. *)
Definition failing_fn : callable := fun _ => Raise ZeroDivisionError.
End Inputs.

(** * Properties *)

(** ** The steppers *)

Section StepperFacts.
Local Open Scope float_scope.

Lemma euler_step_pure r v dt a st :
  euler_step r v dt (pure_fn a) st
  = (Ok (euler_formula dt a (r, v)), record_calls st (euler_points (r, v))).
Proof. reflexivity. Qed.

Lemma rk4_step_pure r v dt a st :
  rk4_step r v dt (pure_fn a) st
  = (Ok (rk4_formula dt a (r, v)), record_calls st (rk4_points dt a (r, v))).
Proof.
  unfold rk4_step, bind, call, pure_fn, ret, record_calls; cbn.
  repeat rewrite <- app_assoc. reflexivity.
Qed.

Lemma stepper_of_pure method r v dt a st :
  stepper_of method r v dt (pure_fn a) st
  = (Ok (formula_of method dt a (r, v)),
     record_calls st (points_of method dt a (r, v))).
Proof.
  unfold stepper_of, formula_of, points_of.
  destruct (String.eqb method "euler");
    [apply euler_step_pure | apply rk4_step_pure].
Qed.

Lemma points_of_length method dt a s :
  length (points_of method dt a s) = evals_per_step method.
Proof.
  unfold points_of, evals_per_step.
  destruct (String.eqb method "euler"), s; reflexivity.
Qed.

(** C3. One Euler step returns [(r + v*dt, v + a(r)*dt)]; the
    acceleration is evaluated exactly once, at the position the step
    starts from, and an exception of the acceleration function is the
    step's.  The arrays are not touched. *)
Theorem euler_step_spec (r v : vec) (dt : float) (acc_fn : callable)
        (st : store) :
  euler_step r v dt acc_fn st
  = (match acc_fn r with
     | Ok a_r => Ok ((r + v *~ dt)%V, (v + a_r *~ dt)%V)
     | Raise e => Raise e
     end,
     mkStore (r_buf st) (v_buf st) (acc_calls st ++ [r])).
Proof.
  unfold euler_step, bind, call, ret.
  destruct (acc_fn r); reflexivity.
Qed.

(** C2. One RK4 step with a total acceleration function [a] returns
    [r + (dt/6)(k1_r + 2 k2_r + 2 k3_r + k4_r)] and
    [v + (dt/6)(k1_v + 2 k2_v + 2 k3_v + k4_v)] for the four stages
    k1..k4 below, and evaluates [a] exactly four times: at the start
    position, at the two midpoints and at the endpoint, in this
    order. *)
Theorem rk4_step_spec (r v : vec) (dt : float) (a : vec -> vec)
        (st : store) :
  let k1_v := a r in
  let k1_r := v in
  let k2_r := (v + k1_v *~ (dt / 2))%V in
  let k2_v := a (r + k1_r *~ (dt / 2))%V in
  let k3_r := (v + k2_v *~ (dt / 2))%V in
  let k3_v := a (r + k2_r *~ (dt / 2))%V in
  let k4_r := (v + k3_v *~ dt)%V in
  let k4_v := a (r + k3_r *~ dt)%V in
  rk4_step r v dt (pure_fn a) st
  = (Ok ((r + (dt / 6) ~* (k1_r + 2 ~* k2_r + 2 ~* k3_r + k4_r))%V,
         (v + (dt / 6) ~* (k1_v + 2 ~* k2_v + 2 ~* k3_v + k4_v))%V),
     mkStore (r_buf st) (v_buf st)
             (acc_calls st
              ++ [r; (r + k1_r *~ (dt / 2))%V; (r + k2_r *~ (dt / 2))%V;
                  (r + k3_r *~ dt)%V])).
Proof. intros. apply rk4_step_pure. Qed.
End StepperFacts.

(** ** The time-marching loop *)

Section LoopFacts.
Local Open Scope float_scope.

Lemma getitem_middle {A} (l1 l2 : list A) (x : A) :
  getitem (l1 ++ x :: l2) (length l1) = Ok x.
Proof. unfold getitem. now rewrite list_lookup_middle. Qed.

Lemma setitem_next {A} (l1 l2 : list A) (x p z : A) :
  setitem (l1 ++ x :: p :: l2) (S (length l1)) z = Ok (l1 ++ x :: z :: l2).
Proof.
  unfold setitem. rewrite decide_True.
  - f_equal. rewrite insert_app_r_alt by lia.
    now replace (S (length l1) - length l1)%nat with 1%nat by lia.
  - rewrite length_app; cbn; lia.
Qed.

Lemma accepted_eqb method :
  accepted method ->
  String.eqb method "euler" = true
  \/ (String.eqb method "euler" = false /\ String.eqb method "rk4" = true).
Proof. intros [-> | ->]; [left | right]; auto. Qed.

Lemma loop_body_accepted method dt a pre_r pre_v x y p q post_r post_v c :
  accepted method ->
  length pre_v = length pre_r ->
  loop_body method dt (pure_fn a) (S (length pre_r))
            (mkStore (pre_r ++ x :: p :: post_r) (pre_v ++ y :: q :: post_v) c)
  = (Ok tt,
     mkStore (pre_r ++ x :: fst (formula_of method dt a (x, y)) :: post_r)
             (pre_v ++ y :: snd (formula_of method dt a (x, y)) :: post_v)
             (c ++ points_of method dt a (x, y))).
Proof.
  intros Hm Hlen.
  assert (Hstep : forall st,
             (if String.eqb method "euler" then euler_step x y dt (pure_fn a) st
              else if String.eqb method "rk4" then rk4_step x y dt (pure_fn a) st
              else rk4_step x y dt (pure_fn a) st)
             = (Ok (formula_of method dt a (x, y)),
                record_calls st (points_of method dt a (x, y)))).
  { intros st. rewrite <- stepper_of_pure. unfold stepper_of.
    destruct (String.eqb method "euler"), (String.eqb method "rk4"); reflexivity. }
  unfold loop_body.
  assert (Hbody : forall st,
    (if String.eqb method "euler"
     then bind (get_r (S (length pre_r) - 1)) (fun r_old =>
          bind (get_v (S (length pre_r) - 1)) (fun v_old =>
          bind (euler_step r_old v_old dt (pure_fn a)) (fun '(r_new, v_new) =>
          bind (set_r (S (length pre_r)) r_new) (fun _ =>
          set_v (S (length pre_r)) v_new))))
     else if String.eqb method "rk4"
     then bind (get_r (S (length pre_r) - 1)) (fun r_old =>
          bind (get_v (S (length pre_r) - 1)) (fun v_old =>
          bind (rk4_step r_old v_old dt (pure_fn a)) (fun '(r_new, v_new) =>
          bind (set_r (S (length pre_r)) r_new) (fun _ =>
          set_v (S (length pre_r)) v_new))))
     else raise (unknown_method method)) st
    = bind (get_r (length pre_r)) (fun r_old =>
      bind (get_v (length pre_r)) (fun v_old =>
      bind (stepper_of method r_old v_old dt (pure_fn a)) (fun '(r_new, v_new) =>
      bind (set_r (S (length pre_r)) r_new) (fun _ =>
      set_v (S (length pre_r)) v_new)))) st).
  { intros st. replace (S (length pre_r) - 1)%nat with (length pre_r) by lia.
    unfold stepper_of.
    destruct (accepted_eqb method Hm) as [-> | [-> ->]]; reflexivity. }
  rewrite Hbody. clear Hbody Hstep.
  unfold bind, get_r, get_v; cbn [r_buf v_buf acc_calls].
  rewrite getitem_middle. rewrite <- Hlen, getitem_middle.
  rewrite stepper_of_pure.
  destruct (formula_of method dt a (x, y)) as [r_new v_new]; cbn [fst snd].
  unfold set_r, set_v, record_calls; cbn [r_buf v_buf acc_calls].
  rewrite Hlen, setitem_next. cbn [r_buf v_buf acc_calls].
  rewrite <- Hlen, setitem_next. reflexivity.
Qed.

Lemma for_each_orbit method dt a :
  accepted method ->
  forall post_r post_v pre_r pre_v x y c,
    length pre_v = length pre_r ->
    length post_v = length post_r ->
    for_each (seq (S (length pre_r)) (length post_r))
             (loop_body method dt (pure_fn a))
             (mkStore (pre_r ++ x :: post_r) (pre_v ++ y :: post_v) c)
    = (Ok tt,
       mkStore
         (pre_r ++ map fst (orbit (formula_of method dt a)
                                  (S (length post_r)) (x, y)))
         (pre_v ++ map snd (orbit (formula_of method dt a)
                                  (S (length post_r)) (x, y)))
         (c ++ concat (map (points_of method dt a)
                           (orbit (formula_of method dt a)
                                  (length post_r) (x, y))))).
Proof.
  intros Hm. induction post_r as [|p post_r IH]; intros post_v pre_r pre_v x y c Hpre Hpost.
  - destruct post_v; [|discriminate]. cbn. now rewrite app_nil_r.
  - destruct post_v as [|q post_v]; [discriminate|].
    cbn [length seq for_each]. unfold bind at 1.
    rewrite loop_body_accepted by assumption.
    set (s' := formula_of method dt a (x, y)).
    specialize (IH post_v (pre_r ++ [x]) (pre_v ++ [y]) (fst s') (snd s')
                   (c ++ points_of method dt a (x, y))).
    rewrite !length_app in IH. cbn [length] in IH.
    replace (length pre_r + 1)%nat with (S (length pre_r)) in IH by lia.
    rewrite <- !app_assoc in IH. cbn [app] in IH.
    rewrite IH by (cbn in *; lia).
    rewrite <- surjective_pairing.
    cbn [orbit map concat]. fold s'.
    reflexivity.
Qed.

Lemma orbit_length f n s : length (orbit f n s) = n.
Proof. revert s; induction n; intros; cbn; auto. Qed.

Lemma orbit_head f n s : orbit f (S n) s !! 0%nat = Some s.
Proof. reflexivity. Qed.

Lemma orbit_succ f n s i si :
  orbit f n s !! i = Some si -> (S i < n)%nat ->
  orbit f n s !! S i = Some (f si).
Proof.
  revert s i. induction n as [|n IH]; intros s i Hi Hlt; [lia|].
  destruct i as [|i]; cbn in *.
  - inversion Hi; subst. destruct n; [lia | reflexivity].
  - apply IH; [assumption | lia].
Qed.

Lemma orbit_calls_length method dt a n s :
  length (concat (map (points_of method dt a)
                      (orbit (formula_of method dt a) n s)))
  = (n * evals_per_step method)%nat.
Proof.
  revert s; induction n as [|n IH]; intros s; cbn; [reflexivity|].
  now rewrite length_app, points_of_length, IH.
Qed.

Lemma initialize_arrays_ok {T} (r0 v0 : vec) (t : list T) n :
  length t = S n ->
  initialize_arrays r0 v0 t
  = Ok (r0 :: replicate n Vec.zeros, v0 :: replicate n Vec.zeros).
Proof. intros H. unfold initialize_arrays. rewrite H. reflexivity. Qed.

Lemma run_integration_orbit method dt a r0 v0 n :
  accepted (lower method) ->
  run_integration method dt (pure_fn a)
    (mkStore (r0 :: replicate n Vec.zeros) (v0 :: replicate n Vec.zeros) [])
  = (Ok tt,
     mkStore
       (map fst (orbit (formula_of (lower method) dt a) (S n) (r0, v0)))
       (map snd (orbit (formula_of (lower method) dt a) (S n) (r0, v0)))
       (concat (map (points_of (lower method) dt a)
                    (orbit (formula_of (lower method) dt a) n (r0, v0))))).
Proof.
  intros Hm. unfold run_integration, bind, len_r, range1.
  cbn [r_buf length]. replace (S (length (replicate n Vec.zeros)) - 1)%nat
    with (length (replicate n Vec.zeros)) by lia.
  pose proof (for_each_orbit (lower method) dt a Hm
                (replicate n Vec.zeros) (replicate n Vec.zeros) [] [] r0 v0 []
                eq_refl eq_refl) as H.
  cbn [app length] in H. rewrite H. now rewrite length_replicate.
Qed.
End LoopFacts.

(** ** run_integration on freshly seeded arrays *)

Section IntegrationFacts.
Local Open Scope float_scope.

(** C1. On the arrays [initialize_arrays] builds for a time grid of
    N >= 1 points, [run_integration] with a method name that lowercases
    to "euler" or "rk4" returns normally and leaves two arrays of length
    N whose row 0 is the initial state and whose row i, for every
    1 <= i <= N-1, is what one call of the selected stepper returns on
    row i-1 with step dt; the acceleration function has then been
    evaluated once (Euler) or four times (RK4) per filled row. *)
Theorem run_integration_trajectory {T : Type} (method : string)
        (r0 v0 : vec) (dt : float) (a : vec -> vec) (t : list T) :
  (1 <= length t)%nat ->
  accepted (lower method) ->
  exists r v r' v' calls,
    initialize_arrays r0 v0 t = Ok (r, v)
    /\ run_integration method dt (pure_fn a) (mkStore r v [])
       = (Ok tt, mkStore r' v' calls)
    /\ length r' = length t /\ length v' = length t
    /\ r' !! 0%nat = Some r0 /\ v' !! 0%nat = Some v0
    /\ (forall i, (1 <= i < length t)%nat ->
        exists ri vi ri' vi',
          r' !! (i - 1)%nat = Some ri /\ v' !! (i - 1)%nat = Some vi
          /\ r' !! i = Some ri' /\ v' !! i = Some vi'
          /\ forall st,
              fst (stepper_of (lower method) ri vi dt (pure_fn a) st)
              = Ok (ri', vi'))
    /\ length calls = ((length t - 1) * evals_per_step (lower method))%nat.
Proof.
  intros Hlen Hm.
  destruct (length t) as [|n] eqn:Ht; [lia|].
  set (f := formula_of (lower method) dt a).
  set (o := orbit f (S n) (r0, v0)).
  exists (r0 :: replicate n Vec.zeros), (v0 :: replicate n Vec.zeros),
    (map fst o), (map snd o),
    (concat (map (points_of (lower method) dt a) (orbit f n (r0, v0)))).
  split; [now apply initialize_arrays_ok|].
  split; [now apply run_integration_orbit|].
  split; [now rewrite length_map; apply orbit_length|].
  split; [now rewrite length_map; apply orbit_length|].
  split; [reflexivity|]. split; [reflexivity|].
  split.
  - intros i Hi.
    assert (Hprev : is_Some (o !! (i - 1)%nat)).
    { apply lookup_lt_is_Some. unfold o. rewrite orbit_length. lia. }
    destruct Hprev as [[ri vi] Hprev].
    assert (Hcur : o !! i = Some (f (ri, vi))).
    { replace i with (S (i - 1)) by lia.
      apply orbit_succ; [assumption | lia]. }
    exists ri, vi, (fst (f (ri, vi))), (snd (f (ri, vi))).
    rewrite !list_lookup_fmap, Hprev, Hcur. cbn.
    repeat split; try reflexivity.
    intros st. rewrite stepper_of_pure. cbn. fold f.
    now destruct (f (ri, vi)).
  - rewrite orbit_calls_length. f_equal. lia.
Qed.

(** The accepted spellings are ASCII strings. *)
Lemma lower_ascii_isascii c :
  (nat_of_ascii (lower_ascii c) < 128 -> nat_of_ascii c < 128)%nat.
Proof.
  unfold lower_ascii.
  destruct ((65 <=? nat_of_ascii c)%nat && (nat_of_ascii c <=? 90)%nat) eqn:E;
    [|trivial].
  apply andb_prop in E as [_ E%Nat.leb_le]. lia.
Qed.

Lemma lower_isascii s : isascii (lower s) = true -> isascii s = true.
Proof.
  induction s as [|c s IH]; cbn [lower isascii]; [trivial|].
  intros [Hc Hs]%andb_prop. apply andb_true_intro. split; [|auto].
  apply Nat.ltb_lt, lower_ascii_isascii, Nat.ltb_lt, Hc.
Qed.

Lemma accepted_isascii method : accepted (lower method) -> isascii method = true.
Proof.
  intros H. apply lower_isascii. destruct H as [-> | ->]; reflexivity.
Qed.

(** C6, what the code does.  For an ASCII method name that lowercases
    to neither "euler" nor "rk4", [run_integration] raises the
    ValueError that names the lowercased name and both accepted values
    exactly when the arrays have N >= 2 rows, on its first pass through
    the loop: no row has been written and the acceleration function has
    not been called.  The test of the name sits inside the loop, so
    with N <= 1 it is never reached and the call returns normally: the
    rejection that the claim asks for at every N is missed there. *)
Theorem run_integration_unknown_method (method : string) (dt : float)
        (acc_fn : callable) (st : store) :
  isascii method = true ->
  String.eqb (lower method) "euler" = false ->
  String.eqb (lower method) "rk4" = false ->
  run_integration method dt acc_fn st
  = (if decide (2 <= length (r_buf st))%nat
     then Raise (ValueError ("Unknown numerical method '" ++ lower method
                             ++ "'. Use 'euler' or 'rk4'.")%string)
     else Ok tt,
     st).
Proof.
  intros _ He Hr. unfold run_integration, bind, len_r, range1.
  destruct (length (r_buf st)) as [|[|n]] eqn:Hn; cbn [Nat.sub seq for_each].
  - reflexivity.
  - reflexivity.
  - rewrite decide_True by lia.
    unfold bind, loop_body. rewrite He, Hr. reflexivity.
Qed.

Lemma run_integration_unknown_method_witness :
  run_integration "LeapFrog" 3600 (pure_fn (fun x => x))
    (mkStore [(1, 0); (0, 0)] [(0, 1); (0, 0)] [])
  = (Raise (ValueError
       "Unknown numerical method 'leapfrog'. Use 'euler' or 'rk4'."),
     mkStore [(1, 0); (0, 0)] [(0, 1); (0, 0)] []).
Proof.
  exact (run_integration_unknown_method "LeapFrog" 3600
           (pure_fn (fun x => x))
           (mkStore [(1, 0); (0, 0)] [(0, 1); (0, 0)] [])
           eq_refl eq_refl eq_refl).
Defined.

(** C6 at the failing input: on arrays of one row, which a time step
    that is not below the simulated time produces, the unknown name
    "leapfrog" is accepted silently. *)
Lemma run_integration_leapfrog_single_row :
  run_integration "leapfrog" 3600 (pure_fn (fun x => x))
    (mkStore [(1, 0)] [(0, 1)] [])
  = (Ok tt, mkStore [(1, 0)] [(0, 1)] []).
Proof. reflexivity. Qed.

Lemma run_integration_trajectory_witness :
  let method := "RK4"%string in
  let r0 : vec := (1, 0) in
  let v0 : vec := (0, 1) in
  let dt := 1 in
  let a : vec -> vec := fun x => ((- 1) ~* x)%V in
  let t := [0; 1; 2]%nat in
  exists r v r' v' calls,
    initialize_arrays r0 v0 t = Ok (r, v)
    /\ run_integration method dt (pure_fn a) (mkStore r v [])
       = (Ok tt, mkStore r' v' calls)
    /\ length r' = length t /\ length v' = length t
    /\ r' !! 0%nat = Some r0 /\ v' !! 0%nat = Some v0
    /\ (forall i, (1 <= i < length t)%nat ->
        exists ri vi ri' vi',
          r' !! (i - 1)%nat = Some ri /\ v' !! (i - 1)%nat = Some vi
          /\ r' !! i = Some ri' /\ v' !! i = Some vi'
          /\ forall st,
              fst (stepper_of (lower method) ri vi dt (pure_fn a) st)
              = Ok (ri', vi'))
    /\ length calls = ((length t - 1) * evals_per_step (lower method))%nat.
Proof.
  exact (run_integration_trajectory "RK4" (1, 0) (0, 1) 1
           (fun x => (- 1) ~* x)%V [0; 1; 2]%nat
           (le_S _ _ (le_S _ _ (le_n 1))) (or_intror eq_refl)).
Defined.
End IntegrationFacts.

(** ** Classification of binary64 values *)

Section FloatClasses.
Local Open Scope float_scope.

Lemma SFeqb_same x :
  SFeqb x x = match x with S754_nan => false | _ => true end.
Proof.
  destruct x as [[]|[]| |s m e]; try reflexivity.
  unfold SFeqb, SFcompare.
  destruct s; rewrite Z.compare_refl, Pos.compare_cont_refl; reflexivity.
Qed.

Lemma is_nan_spec f :
  is_nan f = match Prim2SF f with S754_nan => true | _ => false end.
Proof.
  unfold is_nan. rewrite FloatAxioms.eqb_spec, SFeqb_same.
  destruct (Prim2SF f); reflexivity.
Qed.

Lemma is_zero_spec f :
  is_zero f = match Prim2SF f with S754_zero _ => true | _ => false end.
Proof.
  unfold is_zero. rewrite FloatAxioms.eqb_spec.
  change (Prim2SF zero) with (S754_zero false).
  destruct (Prim2SF f) as [[]|[]| |[] m e]; reflexivity.
Qed.

Lemma is_infinity_spec f :
  is_infinity f
  = match Prim2SF f with S754_infinity _ => true | _ => false end.
Proof.
  unfold is_infinity. rewrite FloatAxioms.eqb_spec, abs_spec.
  change (Prim2SF infinity) with (S754_infinity false).
  destruct (Prim2SF f) as [s|s| |s m e]; reflexivity.
Qed.

Lemma is_finite_spec f :
  is_finite f
  = match Prim2SF f with
    | S754_nan | S754_infinity _ => false
    | _ => true
    end.
Proof.
  unfold is_finite. rewrite is_nan_spec, is_infinity_spec.
  destruct (Prim2SF f); reflexivity.
Qed.

(** [- (g / z) * x] for a zero [z]: never finite, and a NaN when [x] is
    a zero as well. *)
Lemma scaled_by_zero_quotient g z x :
  is_zero z = true ->
  is_finite (- (g / z) * x) = false
  /\ (is_zero x = true -> is_nan (- (g / z) * x) = true).
Proof.
  rewrite is_zero_spec, is_finite_spec, is_nan_spec, (is_zero_spec x).
  rewrite mul_spec, opp_spec, div_spec.
  destruct (Prim2SF z) as [sz| | |]; try discriminate. intros _.
  destruct (Prim2SF g) as [sg|sg| |sg mg eg];
    destruct (Prim2SF x) as [sx|sx| |sx mx ex];
    cbn; split; (reflexivity || discriminate).
Qed.

(** A NaN term makes [b + a * c] a NaN. *)
Lemma nan_mul_add a b c :
  is_nan a = true -> is_nan (b + a * c) = true.
Proof.
  rewrite !is_nan_spec, add_spec, mul_spec.
  destruct (Prim2SF a); try discriminate. intros _.
  destruct (Prim2SF b), (Prim2SF c); reflexivity.
Qed.

Lemma nan_add_l a b : is_nan a = true -> is_nan (a + b) = true.
Proof.
  rewrite !is_nan_spec, add_spec.
  destruct (Prim2SF a); try discriminate. reflexivity.
Qed.

Lemma nan_add_r a b : is_nan a = true -> is_nan (b + a) = true.
Proof.
  rewrite !is_nan_spec, add_spec.
  destruct (Prim2SF a); try discriminate. intros _.
  destruct (Prim2SF b); reflexivity.
Qed.

Lemma nan_mul_r a b : is_nan a = true -> is_nan (b * a) = true.
Proof.
  rewrite !is_nan_spec, mul_spec.
  destruct (Prim2SF a); try discriminate. intros _.
  destruct (Prim2SF b); reflexivity.
Qed.

(** A cube computed by two multiplications keeps a zero. *)
Lemma cube_zero x : is_zero x = true -> is_zero (x * x * x) = true.
Proof.
  rewrite !is_zero_spec, !mul_spec.
  destruct (Prim2SF x) as [[]| | |]; try discriminate; reflexivity.
Qed.
End FloatClasses.

(** ** Rounding of binary64 products and quotients

    Two facts about the rounding that [SpecFloat] specifies, for
    integers that convert exactly: [int(n * 0.05)] is [n // 20], which
    the aphelion search relies on, and the ceiling of the binary64
    quotient [a / b] is the ceiling of the exact quotient, which gives
    the length of [np.arange]. *)

Section FloatRounding.
Local Open Scope Z_scope.

Lemma digits2_pos_size p : digits2_pos p = Pos.size p.
Proof. induction p; simpl; congruence. Qed.

Lemma Zdigits2_bounds p :
  2 ^ (Zdigits2 (Zpos p) - 1) <= Zpos p < 2 ^ Zdigits2 (Zpos p).
Proof.
  cbn [Zdigits2]. rewrite digits2_pos_size.
  pose proof (Pos.size_gt p) as Hgt. pose proof (Pos.size_le p) as Hle.
  apply Pos2Z.pos_lt_pos in Hgt. apply Pos2Z.pos_le_pos in Hle.
  rewrite Pos2Z.inj_pow in Hgt, Hle.
  split; [|exact Hgt].
  replace (Zpos (Pos.size p)) with (Z.succ (Zpos (Pos.size p) - 1)) in Hle by lia.
  rewrite Z.pow_succ_r in Hle by lia. lia.
Qed.

Lemma Zdigits2_unique p D :
  2 ^ (D - 1) <= Zpos p < 2 ^ D -> Zdigits2 (Zpos p) = D.
Proof.
  intros [Hlo Hhi]. pose proof (Zdigits2_bounds p) as [Blo Bhi].
  set (s := Zdigits2 (Zpos p)) in *.
  assert (0 < s) by (subst s; cbn; lia).
  destruct (Z_lt_le_dec D 1) as [HD|HD].
  { assert (2 ^ D <= 2 ^ 0) by (apply Z.pow_le_mono_r; lia).
    destruct (Z_lt_le_dec D 0); [rewrite Z.pow_neg_r in Hhi by lia; lia|].
    replace D with 0 in * by lia. simpl in *. lia. }
  destruct (Z.lt_trichotomy s D) as [Hlt | [Heq | Hgt]]; [|assumption|].
  - assert (2 ^ s <= 2 ^ (D - 1)) by (apply Z.pow_le_mono_r; lia). lia.
  - assert (2 ^ D <= 2 ^ (s - 1)) by (apply Z.pow_le_mono_r; lia). lia.
Qed.

Lemma shr_1_m mrs : 0 <= shr_m mrs -> shr_m (shr_1 mrs) = shr_m mrs / 2.
Proof.
  destruct mrs as [m r s]. cbn [shr_m]. intros Hm.
  rewrite <- Z.div2_div.
  destruct m as [|[p|p|]|p]; try reflexivity. lia.
Qed.

Lemma iter_shr_1_m n : forall mrs,
  0 <= shr_m mrs ->
  shr_m (SpecFloat.iter_pos shr_1 n mrs) = shr_m mrs / 2 ^ Zpos n.
Proof.
  induction n as [n IH|n IH|]; intros mrs Hm; cbn [SpecFloat.iter_pos].
  - assert (H1 : 0 <= shr_m (shr_1 mrs)) by (rewrite shr_1_m by lia; apply Z.div_pos; lia).
    assert (H2 : 0 <= shr_m (SpecFloat.iter_pos shr_1 n (shr_1 mrs)))
      by (rewrite IH by lia; apply Z.div_pos; [lia | apply Z.pow_pos_nonneg; lia]).
    rewrite IH, IH, shr_1_m by assumption.
    rewrite !Z.div_div by (try apply Z.pow_pos_nonneg; lia).
    f_equal. rewrite Pos2Z.inj_xI.
    rewrite <- Z.pow_add_r, <- Z.pow_succ_r by lia. f_equal. lia.
  - assert (H2 : 0 <= shr_m (SpecFloat.iter_pos shr_1 n mrs))
      by (rewrite IH by lia; apply Z.div_pos; [lia | apply Z.pow_pos_nonneg; lia]).
    rewrite IH, IH by assumption.
    rewrite !Z.div_div by (try apply Z.pow_pos_nonneg; lia).
    f_equal. rewrite Pos2Z.inj_xO.
    rewrite <- Z.pow_add_r by lia. f_equal. lia.
  - rewrite shr_1_m by lia. reflexivity.
Qed.

Lemma iter_xO_value k : forall p, Zpos (Pos.iter xO p k) = Zpos p * 2 ^ Zpos k.
Proof.
  induction k using Pos.peano_ind; intros p.
  - cbn. lia.
  - rewrite Pos.iter_succ, Pos2Z.inj_xO, IHk, Pos2Z.inj_succ, Z.pow_succ_r by lia. lia.
Qed.

Lemma fexp_normal x : -1021 <= x -> fexp prec emax x = x - 53.
Proof. intros. unfold fexp, SpecFloat.emin, prec, emax. lia. Qed.

Lemma shr_fexp_exact53 m e :
  Zdigits2 (Zpos m) = 53 -> -1074 <= e ->
  shr_fexp prec emax (Zpos m) e loc_Exact
  = ({| shr_m := Zpos m; shr_r := false; shr_s := false |}, e).
Proof.
  intros Hd He. unfold shr_fexp. rewrite Hd, fexp_normal by lia.
  replace (53 + e - 53 - e) with 0 by lia. reflexivity.
Qed.

Lemma binary_round_aux_exact s m e :
  Zdigits2 (Zpos m) = 53 -> -1074 <= e <= 971 ->
  binary_round_aux prec emax s (Zpos m) e loc_Exact = S754_finite s m e.
Proof.
  intros Hd He. unfold binary_round_aux.
  rewrite shr_fexp_exact53 by lia. cbn [shr_m loc_of_shr_record round_nearest_even].
  rewrite shr_fexp_exact53 by lia. cbn [shr_m].
  replace (e <=? emax - prec) with true; [reflexivity|].
  symmetry. apply Z.leb_le. unfold emax, prec. lia.
Qed.

Lemma round_nearest_even_bracket m l :
  round_nearest_even m l = m \/ round_nearest_even m l = m + 1.
Proof.
  destruct l as [|[]]; cbn; auto. destruct (Z.even m); auto.
Qed.

Lemma binary_round_aux_bracket (M : positive) (E : Z) (n : positive) :
  Zdigits2 (Zpos M) = 53 + Zpos n -> -1074 <= E + Zpos n <= 970 ->
  exists m1 : positive,
    (Zpos m1 = Zpos M / 2 ^ Zpos n \/ Zpos m1 = Zpos M / 2 ^ Zpos n + 1)
    /\ binary_round_aux prec emax false (Zpos M) E loc_Exact
       = if Zpos m1 <? 2 ^ 53
         then S754_finite false m1 (E + Zpos n)
         else S754_finite false (2 ^ 52) (E + Zpos n + 1).
Proof.
  intros Hd He.
  pose proof (Zdigits2_bounds M) as [Blo Bhi]. rewrite Hd in Blo, Bhi.
  assert (Hp : 0 < 2 ^ Zpos n) by (apply Z.pow_pos_nonneg; lia).
  replace (53 + Zpos n - 1) with (52 + Zpos n) in Blo by lia.
  rewrite Z.pow_add_r in Blo, Bhi by lia.
  set (m0 := Zpos M / 2 ^ Zpos n).
  assert (Hm0 : 2 ^ 52 <= m0 < 2 ^ 53).
  { split; [apply Z.div_le_lower_bound | apply Z.div_lt_upper_bound]; lia. }
  assert (H1 : shr_fexp prec emax (Zpos M) E loc_Exact
               = (SpecFloat.iter_pos shr_1 n
                    {| shr_m := Zpos M; shr_r := false; shr_s := false |},
                  E + Zpos n)).
  { unfold shr_fexp. rewrite Hd, fexp_normal by lia.
    replace (53 + Zpos n + E - 53 - E) with (Zpos n) by lia. reflexivity. }
  unfold binary_round_aux. rewrite H1.
  set (mrs := SpecFloat.iter_pos shr_1 n _).
  assert (Hmrs : shr_m mrs = m0).
  { unfold mrs. rewrite iter_shr_1_m by (cbn; lia). reflexivity. }
  rewrite Hmrs.
  set (m1z := round_nearest_even m0 (loc_of_shr_record mrs)).
  assert (Hm1 : m1z = m0 \/ m1z = m0 + 1) by apply round_nearest_even_bracket.
  destruct m1z as [|m1|m1] eqn:Em1; try lia.
  exists m1. split; [exact Hm1|].
  destruct (Z.ltb_spec (Zpos m1) (2 ^ 53)) as [Hlt|Hge].
  - rewrite shr_fexp_exact53; [|apply Zdigits2_unique; lia|lia].
    cbn [shr_m].
    replace (E + Zpos n <=? emax - prec) with true; [reflexivity|].
    symmetry. apply Z.leb_le. unfold emax, prec. lia.
  - assert (Heq : m1 = (2 ^ 53)%positive) by lia. subst m1.
    unfold shr_fexp. change (Zdigits2 (Zpos (2 ^ 53))) with 54.
    rewrite fexp_normal by lia.
    replace (54 + (E + Zpos n) - 53 - (E + Zpos n)) with 1 by lia.
    cbn [shr shr_record_of_loc SpecFloat.iter_pos shr_1 shr_m Pos.pow Pos.iter Pos.mul].
    cbn.
    replace (E + Zpos n + 1 <=? emax - prec) with true; [reflexivity|].
    symmetry. apply Z.leb_le. unfold emax, prec. lia.
Qed.

Lemma Z2F_normal (N d : Z) :
  1 <= d <= 52 -> 2 ^ (d - 1) <= N < 2 ^ d ->
  exists A : positive,
    Zpos A = N * 2 ^ (53 - d)
    /\ Prim2SF (Z2F N) = S754_finite false A (d - 53).
Proof.
  intros Hd HN.
  assert (0 < 2 ^ (d - 1)) by (apply Z.pow_pos_nonneg; lia).
  destruct N as [|p|p]; try lia.
  assert (Hdig : Zpos (digits2_pos p) = d) by (apply (Zdigits2_unique p d); lia).
  unfold Z2F, binary_normalize, binary_round.
  rewrite Hdig, fexp_normal by lia.
  unfold shl_align.
  destruct (d + 0 - 53 - 0) as [|k|k] eqn:Ek; try lia.
  exists (Pos.iter xO p k).
  assert (Hval : Zpos (Pos.iter xO p k) = Zpos p * 2 ^ (53 - d)).
  { rewrite iter_xO_value. f_equal. f_equal. lia. }
  split; [exact Hval|].
  assert (Hpow : 2 ^ (d - 1) * 2 ^ (53 - d) = 2 ^ 52 /\ 2 ^ d * 2 ^ (53 - d) = 2 ^ 53).
  { rewrite <- !Z.pow_add_r by lia. split; f_equal; lia. }
  assert (0 < 2 ^ (53 - d)) by (apply Z.pow_pos_nonneg; lia).
  assert (Hd53 : Zdigits2 (Zpos (Pos.iter xO p k)) = 53).
  { apply Zdigits2_unique. rewrite Hval. change (53 - 1) with 52. nia. }
  rewrite binary_round_aux_exact by (try exact Hd53; lia).
  rewrite Prim2SF_SF2Prim; [f_equal; lia|].
  unfold SpecFloat.valid_binary, bounded, canonical_mantissa.
  cbn [Zdigits2] in Hd53. rewrite Hd53, fexp_normal by lia.
  apply andb_true_intro. split; [apply Z.eqb_eq | apply Z.leb_le; unfold emax, prec]; lia.
Qed.

Lemma five_percent_SF :
  Prim2SF five_percent = S754_finite false 7205759403792794 (-57).
Proof. reflexivity. Qed.

Lemma bits_of_bounded (N K : Z) :
  1 <= N < 2 ^ K -> exists d, 1 <= d <= K /\ 2 ^ (d - 1) <= N < 2 ^ d.
Proof.
  intros HN. exists (Z.log2 N + 1).
  pose proof (Z.log2_spec N ltac:(lia)) as Hs.
  assert (0 <= K).
  { destruct (Z_lt_le_dec K 0) as [Hk|Hk]; [|lia].
    rewrite Z.pow_neg_r in HN by lia. lia. }
  assert (Z.log2 N < K) by (apply Z.log2_lt_pow2; lia).
  pose proof (Z.log2_nonneg N).
  replace (Z.log2 N + 1 - 1) with (Z.log2 N) by lia.
  replace (Z.log2 N + 1) with (Z.succ (Z.log2 N)) by lia.
  split; [lia | exact Hs].
Qed.

Lemma five_percent_arith (N T P K m1 : Z) :
  0 <= N -> 32 <= T -> N * T < 2 ^ 53 ->
  (P = 2 ^ 52 /\ K = 32) \/ (P = 2 ^ 53 /\ K = 16) ->
  m1 = N * T * 7205759403792794 / P \/ m1 = N * T * 7205759403792794 / P + 1 ->
  m1 / (K * T) = N / 20.
Proof.
  intros HN HT HA HPK Hm1.
  pose proof (Z.div_mod N 20 ltac:(lia)) as Hdm.
  pose proof (Z.mod_pos_bound N 20 ltac:(lia)) as Hr.
  set (q := N / 20) in *. set (r := N mod 20) in *.
  clearbody q r.
  assert (HNT : N * T = 20 * (q * T) + r * T) by (rewrite Hdm; ring).
  assert (HC : 0 <= r * T <= 19 * T) by nia.
  assert (Hq : 0 <= q) by lia.
  assert (HB : 0 <= q * T) by (apply Z.mul_nonneg_nonneg; lia).
  rewrite HNT in *.
  assert (HP : 0 < P) by (destruct HPK as [[-> _]|[-> _]]; reflexivity).
  pose proof (Z.mul_div_le ((20 * (q * T) + r * T) * 7205759403792794) P HP) as Hlo.
  pose proof (Z.mul_succ_div_gt ((20 * (q * T) + r * T) * 7205759403792794) P HP) as Hhi.
  set (m0 := (20 * (q * T) + r * T) * 7205759403792794 / P) in *.
  clearbody m0.
  symmetry. apply Z.div_unique with (r := m1 - K * (q * T)); [|ring].
  left.
  set (B := q * T) in *. set (C := r * T) in *. clearbody B C.
  change (2 ^ 53) with 9007199254740992 in *.
  change (2 ^ 52) with 4503599627370496 in *.
  destruct HPK as [[-> ->]|[-> ->]]; destruct Hm1 as [-> | ->]; lia.
Qed.

Lemma trunc_five_percent (N : Z) :
  0 <= N < 2 ^ 48 ->
  SF_trunc (Prim2SF (Z2F N * five_percent)) = Some (N / 20).
Proof.
  intros HN.
  destruct (Z.eq_dec N 0) as [->|Hnz]; [reflexivity|].
  destruct (bits_of_bounded N 48 ltac:(lia)) as (d & Hd & Hbits).
  destruct (Z2F_normal N d ltac:(lia) Hbits) as (A & HA & HSF).
  rewrite mul_spec, HSF, five_percent_SF.
  unfold SF64mul, SFmul. cbn [xorb].
  set (T := 2 ^ (53 - d)) in *.
  assert (HT : 32 <= T).
  { change 32 with (2 ^ 5). apply Z.pow_le_mono_r; lia. }
  assert (HAbits : 2 ^ 52 <= Zpos A < 2 ^ 53).
  { assert (Hpow : 2 ^ (d - 1) * T = 2 ^ 52 /\ 2 ^ d * T = 2 ^ 53).
    { unfold T. rewrite <- !Z.pow_add_r by lia. split; f_equal; lia. }
    rewrite HA. nia. }
  set (M := (A * 7205759403792794)%positive).
  assert (HM : Zpos M = N * T * 7205759403792794) by (unfold M; lia).
  assert (HMbits : 2 ^ 104 <= Zpos M < 2 ^ 106).
  { change (2 ^ 104) with 20282409603651670423947251286016.
    change (2 ^ 106) with 81129638414606681695789005144064.
    change (2 ^ 52) with 4503599627370496 in HAbits.
    change (2 ^ 53) with 9007199254740992 in HAbits. lia. }
  assert (Hcase :
    exists (n : positive) (P K : Z),
      Zdigits2 (Zpos M) = 53 + Zpos n
      /\ P = 2 ^ Zpos n /\ K * P = 2 ^ 57
      /\ ((P = 2 ^ 52 /\ K = 32) \/ (P = 2 ^ 53 /\ K = 16))).
  { destruct (Z_lt_le_dec (Zpos M) (2 ^ 105)).
    - exists 52%positive, (2 ^ 52), 32. repeat split; auto.
      apply Zdigits2_unique. change (53 + 52 - 1) with 104.
      change (53 + 52) with 105. lia.
    - exists 53%positive, (2 ^ 53), 16. repeat split; auto.
      apply Zdigits2_unique. change (53 + 53 - 1) with 105.
      change (53 + 53) with 106. lia. }
  destruct Hcase as (n & P & K & Hdig & HP & HKP & HPK).
  assert (Hn : Zpos n = 52 \/ Zpos n = 53).
  { destruct HPK as [[HP' _]|[HP' _]]; rewrite HP in HP';
      apply Z.pow_inj_r in HP'; lia. }
  destruct (binary_round_aux_bracket M (d - 53 + -57) n Hdig ltac:(lia))
    as (m1 & Hm1 & ->).
  rewrite <- HP, HM in Hm1.
  pose proof (five_percent_arith N T P K (Zpos m1) ltac:(lia) HT ltac:(lia) HPK Hm1)
    as Hdiv.
  assert (HKT : K * T = 2 ^ (110 - d - Zpos n)).
  { unfold T.
    assert (K = 2 ^ (57 - Zpos n)) as ->.
    { destruct HPK as [[_ ->]|[_ ->]], Hn as [Hn|Hn];
        rewrite HP, Hn in *; try reflexivity; discriminate. }
    rewrite <- Z.pow_add_r by lia. f_equal. lia. }
  destruct (Z.ltb_spec (Zpos m1) (2 ^ 53)) as [Hlt|Hge]; cbn [SF_trunc].
  - destruct (d - 53 + -57 + Zpos n) as [|k|k] eqn:Ek; try lia.
    cbn [cond_Zopp]. f_equal. rewrite <- Hdiv, HKT. f_equal. f_equal. lia.
  - destruct (d - 53 + -57 + Zpos n + 1) as [|k|k] eqn:Ek; try lia.
    cbn [cond_Zopp]. f_equal. rewrite <- Hdiv, HKT.
    assert (Hm1eq : Zpos m1 = 2 ^ 53).
    { assert (Zpos m1 <= 2 ^ 53); [|lia].
      pose proof (Zdigits2_bounds M) as [_ Bhi]. rewrite Hdig in Bhi.
      rewrite Z.pow_add_r in Bhi by lia. rewrite <- HP in Bhi.
      assert (0 < P) by (rewrite HP; apply Z.pow_pos_nonneg; lia).
      assert (Zpos M / P < 2 ^ 53) by (apply Z.div_lt_upper_bound; lia).
      rewrite <- HM in Hm1. lia. }
    rewrite Hm1eq.
    replace (110 - d - Zpos n) with (Z.succ (Zpos k)) by lia.
    rewrite Z.pow_succ_r by lia.
    change (2 ^ 53) with (2 * 2 ^ 52).
    rewrite Z.div_mul_cancel_l; [reflexivity | | lia].
    apply Z.pow_nonzero; lia.
Qed.
Lemma shr_record_of_loc_m m l : shr_m (shr_record_of_loc m l) = m.
Proof. destruct l as [|[]]; reflexivity. Qed.

Lemma loc_of_shr_record_of_loc m l :
  loc_of_shr_record (shr_record_of_loc m l) = l.
Proof. destruct l as [|[]]; reflexivity. Qed.

Lemma round_exact_carry E :
  -1074 <= E <= 970 ->
  (let '(mrs, e) := shr_fexp prec emax (Zpos (2 ^ 53)) E loc_Exact in
   match shr_m mrs with
   | 0 => S754_zero false
   | Zpos m => if e <=? emax - prec then S754_finite false m e else S754_infinity false
   | Zneg _ => S754_nan
   end) = S754_finite false (2 ^ 52) (E + 1).
Proof.
  intros HE. unfold shr_fexp. change (Zdigits2 (Zpos (2 ^ 53))) with 54.
  rewrite fexp_normal by lia.
  replace (54 + E - 53 - E) with 1 by lia.
  cbn.
  replace (E + 1 <=? emax - prec) with true; [reflexivity|].
  symmetry. apply Z.leb_le. unfold emax, prec. lia.
Qed.

Lemma round_exact_normal (m : positive) E :
  2 ^ 52 <= Zpos m < 2 ^ 53 -> -1074 <= E <= 971 ->
  (let '(mrs, e) := shr_fexp prec emax (Zpos m) E loc_Exact in
   match shr_m mrs with
   | 0 => S754_zero false
   | Zpos m => if e <=? emax - prec then S754_finite false m e else S754_infinity false
   | Zneg _ => S754_nan
   end) = S754_finite false m E.
Proof.
  intros Hm HE. rewrite shr_fexp_exact53; [|apply Zdigits2_unique; lia|lia].
  cbn [shr_m].
  replace (E <=? emax - prec) with true; [reflexivity|].
  symmetry. apply Z.leb_le. unfold emax, prec. lia.
Qed.

Lemma round_quotient (q : positive) (E : Z) (loc : location) :
  2 ^ 52 <= Zpos q < 2 ^ 54 -> -1074 <= E <= 969 ->
  exists (n : Z) (m1 : positive),
    (n = 0 \/ n = 1)
    /\ (Zpos m1 = Zpos q / 2 ^ n \/ Zpos m1 = Zpos q / 2 ^ n + 1)
    /\ (loc = loc_Exact -> Zpos q mod 2 ^ n = 0 -> Zpos m1 = Zpos q / 2 ^ n)
    /\ Zpos m1 <= 2 ^ 53
    /\ binary_round_aux prec emax false (Zpos q) E loc
       = if Zpos m1 <? 2 ^ 53
         then S754_finite false m1 (E + n)
         else S754_finite false (2 ^ 52) (E + n + 1).
Proof.
  intros Hq HE. unfold binary_round_aux.
  destruct (Z_lt_le_dec (Zpos q) (2 ^ 53)) as [Hlt|Hge].
  - (* no shift *)
    assert (H1 : shr_fexp prec emax (Zpos q) E loc = (shr_record_of_loc (Zpos q) loc, E)).
    { unfold shr_fexp. rewrite (Zdigits2_unique q 53) by lia.
      rewrite fexp_normal by lia. replace (53 + E - 53 - E) with 0 by lia. reflexivity. }
    rewrite H1, shr_record_of_loc_m, loc_of_shr_record_of_loc.
    pose proof (round_nearest_even_bracket (Zpos q) loc) as Hb.
    destruct (round_nearest_even (Zpos q) loc) as [|m1|m1] eqn:Em1; try lia.
    exists 0, m1. rewrite Z.div_1_r, Z.add_0_r.
    split; [auto|]. split; [exact Hb|]. split.
    { intros -> _. cbn in Em1. lia. }
    split; [lia|].
    destruct (Z.ltb_spec (Zpos m1) (2 ^ 53)) as [Hl|Hg].
    + apply round_exact_normal; lia.
    + assert (m1 = (2 ^ 53)%positive) as -> by lia.
      apply round_exact_carry; lia.
  - (* one shift *)
    assert (H1 : shr_fexp prec emax (Zpos q) E loc
                 = (shr_1 (shr_record_of_loc (Zpos q) loc), E + 1)).
    { unfold shr_fexp. rewrite (Zdigits2_unique q 54) by lia.
      rewrite fexp_normal by lia. replace (54 + E - 53 - E) with 1 by lia. reflexivity. }
    rewrite H1.
    set (mrs := shr_1 (shr_record_of_loc (Zpos q) loc)).
    assert (Hm : shr_m mrs = Zpos q / 2).
    { unfold mrs. rewrite shr_1_m; rewrite shr_record_of_loc_m; lia. }
    rewrite Hm.
    assert (Hq2 : 2 ^ 52 <= Zpos q / 2 < 2 ^ 53).
    { split; [apply Z.div_le_lower_bound | apply Z.div_lt_upper_bound]; lia. }
    pose proof (round_nearest_even_bracket (Zpos q / 2) (loc_of_shr_record mrs)) as Hb.
    destruct (round_nearest_even (Zpos q / 2) (loc_of_shr_record mrs)) as [|m1|m1] eqn:Em1;
      try lia.
    exists 1, m1. change (2 ^ 1) with 2.
    split; [auto|]. split; [exact Hb|]. split.
    { intros -> Hmod. unfold mrs in Em1. cbn [shr_record_of_loc shr_1] in Em1.
      destruct q as [q'|q'|]; cbn [orb loc_of_shr_record round_nearest_even] in Em1.
      - rewrite Pos2Z.inj_xI in Hmod.
        rewrite Z.add_comm, Z.mul_comm, Z.mod_add in Hmod by lia. discriminate.
      - lia.
      - lia. }
    split; [lia|].
    destruct (Z.ltb_spec (Zpos m1) (2 ^ 53)) as [Hl|Hg].
    + apply round_exact_normal; lia.
    + assert (m1 = (2 ^ 53)%positive) as -> by lia.
      apply round_exact_carry; lia.
Qed.

Lemma new_location_zero m : new_location m 0 = loc_Exact.
Proof. unfold new_location. destruct (Z.even m); reflexivity. Qed.

Lemma SFdiv_normal (A B : positive) (ea eb : Z) :
  2 ^ 52 <= Zpos A < 2 ^ 53 -> 2 ^ 52 <= Zpos B < 2 ^ 53 ->
  -1021 <= ea - eb ->
  SFdiv prec emax (S754_finite false A ea) (S754_finite false B eb)
  = binary_round_aux prec emax false
      (Zpos A * 2 ^ 53 / Zpos B) (ea - eb - 53)
      (new_location (Zpos B) ((Zpos A * 2 ^ 53) mod Zpos B)).
Proof.
  intros HA HB He. unfold SFdiv, SFdiv_core_binary.
  rewrite (Zdigits2_unique A 53), (Zdigits2_unique B 53) by lia.
  replace (53 + ea - (53 + eb)) with (ea - eb) by lia.
  rewrite fexp_normal by lia.
  rewrite Z.min_l by lia.
  replace (ea - eb - (ea - eb - 53)) with 53 by lia.
  rewrite Z.shiftl_mul_pow2 by lia.
  unfold Z.div, Z.modulo.
  destruct (Z.div_eucl (Zpos A * 2 ^ 53) (Zpos B)) as [q r]. reflexivity.
Qed.

Lemma Zceil_div_unique x y k :
  0 < y -> (k - 1) * y < x <= k * y -> Zceil_div x y = k.
Proof.
  intros Hy Hx. unfold Zceil_div.
  rewrite <- (Z.div_unique (- x) y (- k) (k * y - x)); lia.
Qed.

Lemma Zceil_div_bounds x y :
  0 < y -> (Zceil_div x y - 1) * y < x <= Zceil_div x y * y.
Proof.
  intros Hy. unfold Zceil_div.
  pose proof (Z.div_mod (- x) y ltac:(lia)).
  pose proof (Z.mod_pos_bound (- x) y Hy). nia.
Qed.

Lemma quotient_ceil_arith (a b U W n m1 : Z) :
  0 < a -> 0 < b -> 0 < W -> (n = 0 \/ n = 1) -> U = W * 2 ^ n -> 2 * b <= U ->
  (m1 = a * U / b / 2 ^ n \/ m1 = a * U / b / 2 ^ n + 1) ->
  ((a * U) mod b = 0 -> (a * U / b) mod 2 ^ n = 0 -> m1 = a * U / b / 2 ^ n) ->
  (Zceil_div a b - 1) * W < m1 <= Zceil_div a b * W.
Proof.
  intros Ha Hb HW Hn HU HUb Hm1 Hexact.
  pose proof (Zceil_div_bounds a b Hb) as [Hklo Hkhi].
  set (k := Zceil_div a b) in *. clearbody k.
  assert (Hp : 0 < 2 ^ n) by (destruct Hn as [-> | ->]; reflexivity).
  assert (Hp2 : 2 ^ n <= 2) by (destruct Hn as [-> | ->]; cbn; lia).
  set (q := a * U / b) in *.
  assert (Hqlo : (k - 1) * U + 2 ^ n <= q).
  { apply Z.div_le_lower_bound; [lia|]. nia. }
  assert (Hqhi : q <= k * U).
  { apply Z.div_le_upper_bound; [lia|]. nia. }
  set (m0 := q / 2 ^ n) in *.
  assert (Hm0lo : (k - 1) * W + 1 <= m0).
  { apply Z.div_le_lower_bound; [lia|]. subst U. nia. }
  assert (Hm0hi : m0 <= k * W).
  { apply Z.div_le_upper_bound; [lia|]. subst U. nia. }
  split; [lia|].
  destruct Hm1 as [-> | ->]; [lia|].
  destruct (Z_lt_le_dec m0 (k * W)) as [Hlt|Hge]; [lia|].
  assert (Hm0 : m0 = k * W) by lia.
  assert (Hq : q = k * U).
  { pose proof (Z.mul_div_le q (2 ^ n) Hp). fold m0 in H. subst U. nia. }
  assert (Hab : a = k * b).
  { pose proof (Z.mul_div_le (a * U) b Hb) as Hle. fold q in Hle.
    assert (0 < U) by lia. nia. }
  assert (Habs : m0 + 1 = m0); [apply Hexact | lia].
  - rewrite Hab. replace (k * b * U) with (k * U * b) by ring.
    apply Z.mod_mul. lia.
  - rewrite Hq, HU. replace (k * (W * 2 ^ n)) with (k * W * 2 ^ n) by ring.
    apply Z.mod_mul. lia.
Qed.

Lemma ceil_int_quotient (a b : Z) :
  0 < a < 2 ^ 52 -> 0 < b < 2 ^ 52 ->
  SF_ceil (Prim2SF (Z2F a / Z2F b)) = Some (Zceil_div a b).
Proof.
  intros Ha Hb.
  destruct (bits_of_bounded a 52 ltac:(lia)) as (da & Hda & Hbitsa).
  destruct (bits_of_bounded b 52 ltac:(lia)) as (db & Hdb & Hbitsb).
  destruct (Z2F_normal a da Hda Hbitsa) as (A & HA & HSFa).
  destruct (Z2F_normal b db Hdb Hbitsb) as (B & HB & HSFb).
  rewrite div_spec, HSFa, HSFb. unfold SF64div.
  set (Ta := 2 ^ (53 - da)) in *. set (Tb := 2 ^ (53 - db)) in *.
  set (U := 2 ^ (53 + db - da)).
  assert (HTa : 0 < Ta) by (apply Z.pow_pos_nonneg; lia).
  assert (HTb : 0 < Tb) by (apply Z.pow_pos_nonneg; lia).
  assert (HU : 0 < U) by (apply Z.pow_pos_nonneg; lia).
  assert (HAb : 2 ^ 52 <= Zpos A < 2 ^ 53).
  { assert (2 ^ (da - 1) * Ta = 2 ^ 52 /\ 2 ^ da * Ta = 2 ^ 53) as [? ?].
    { unfold Ta. rewrite <- !Z.pow_add_r by lia. split; f_equal; lia. }
    rewrite HA. nia. }
  assert (HBb : 2 ^ 52 <= Zpos B < 2 ^ 53).
  { assert (2 ^ (db - 1) * Tb = 2 ^ 52 /\ 2 ^ db * Tb = 2 ^ 53) as [? ?].
    { unfold Tb. rewrite <- !Z.pow_add_r by lia. split; f_equal; lia. }
    rewrite HB. nia. }
  rewrite SFdiv_normal by lia.
  assert (HUT : Ta * 2 ^ 53 = U * Tb).
  { unfold Ta, U, Tb. rewrite <- !Z.pow_add_r by lia. f_equal. lia. }
  assert (Hnum : Zpos A * 2 ^ 53 = a * U * Tb).
  { rewrite HA, <- Z.mul_assoc, HUT. ring. }
  assert (Hqb : 2 ^ 52 <= Zpos A * 2 ^ 53 / Zpos B < 2 ^ 54).
  { change (2 ^ 54) with 18014398509481984.
    change (2 ^ 52) with 4503599627370496 in *.
    change (2 ^ 53) with 9007199254740992 in *.
    split; [apply Z.div_le_lower_bound | apply Z.div_lt_upper_bound]; nia. }
  rewrite Hnum, HB in *.
  rewrite Z.div_mul_cancel_r in * by lia.
  rewrite Z.mul_mod_distr_r in * by lia.
  destruct (a * U / b) as [|q|q] eqn:Eq; try lia.
  destruct (round_quotient q (da - 53 - (db - 53) - 53)
              (new_location (b * Tb) ((a * U) mod b * Tb)) Hqb ltac:(lia))
    as (n & m1 & Hn & Hm1 & Hexact & Hm1le & ->).
  set (W := 2 ^ (53 + db - da - n)).
  assert (HW : 0 < W) by (apply Z.pow_pos_nonneg; destruct Hn; lia).
  assert (HUW : U = W * 2 ^ n).
  { unfold U, W. rewrite <- Z.pow_add_r by (destruct Hn; lia). f_equal. lia. }
  assert (HUb : 2 * b <= U).
  { assert (2 ^ (db + 1) <= U) as Hle by (apply Z.pow_le_mono_r; lia).
    rewrite Z.pow_add_r in Hle by lia. change (2 ^ 1) with 2 in Hle. lia. }
  pose proof (quotient_ceil_arith a b U W n (Zpos m1) ltac:(lia) ltac:(lia) HW Hn HUW HUb)
    as Hk.
  rewrite Eq in Hk. specialize (Hk Hm1).
  assert (Hk' : (Zceil_div a b - 1) * W < Zpos m1 <= Zceil_div a b * W).
  { apply Hk. intros Hmod Hq. apply Hexact; [|exact Hq].
    rewrite Hmod. apply new_location_zero. }
  clear Hk Hexact.
  destruct (Z.ltb_spec (Zpos m1) (2 ^ 53)) as [Hlt|Hge]; cbn [SF_trunc SF_ceil].
  - destruct (da - 53 - (db - 53) - 53 + n) as [|p|p] eqn:Ep;
      try (destruct Hn; lia).
    cbn [cond_Zopp]. f_equal. apply Zceil_div_unique.
    + apply Z.pow_pos_nonneg; lia.
    + replace (2 ^ Zpos p) with W; [exact Hk'|].
      unfold W. f_equal. lia.
  - assert (Hm1eq : Zpos m1 = 2 ^ 53) by lia. rewrite Hm1eq in Hk'.
    destruct (da - 53 - (db - 53) - 53 + n + 1) as [|p|p] eqn:Ep;
      try (destruct Hn; lia).
    + cbn [cond_Zopp]. f_equal.
      assert (W = 2) as HW2 by (unfold W; replace (53 + db - da - n) with 1 by lia; reflexivity).
      rewrite HW2 in Hk'. change (2 ^ 53) with 9007199254740992 in Hk'.
      change (Zpos (2 ^ 52) * 2 ^ 0) with 4503599627370496. lia.
    + cbn [cond_Zopp]. f_equal. apply Zceil_div_unique.
      * apply Z.pow_pos_nonneg; lia.
      * assert (W = 2 * 2 ^ Zpos p) as HW2.
        { unfold W. rewrite <- Z.pow_succ_r by lia. f_equal. lia. }
        assert (0 < 2 ^ Zpos p) by (apply Z.pow_pos_nonneg; lia).
        rewrite HW2 in Hk'. change (2 ^ 53) with (2 * 4503599627370496) in Hk'.
        change (Zpos (2 ^ 52)) with 4503599627370496. nia.
Qed.

End FloatRounding.

(** ** The order of binary64 values and the argmax scan *)

Section FloatOrder.
Local Open Scope Z_scope.

Lemma SFleb_finite s1 m1 e1 s2 m2 e2 :
  SFleb (S754_finite s1 m1 e1) (S754_finite s2 m2 e2)
  = match s1, s2 with
    | true, false => true
    | false, true => false
    | false, false => (e1 <? e2) || ((e1 =? e2) && (Zpos m1 <=? Zpos m2))
    | true, true => (e2 <? e1) || ((e1 =? e2) && (Zpos m2 <=? Zpos m1))
    end.
Proof.
  unfold SFleb, SFcompare.
  destruct s1, s2; try reflexivity;
    rewrite Pos.compare_cont_spec; cbn [Pos.switch_Eq];
    destruct (Z.compare_spec e1 e2), (Pos.compare_spec m1 m2);
    destruct (Z.ltb_spec e1 e2), (Z.ltb_spec e2 e1), (Z.eqb_spec e1 e2),
      (Z.leb_spec (Zpos m1) (Zpos m2)), (Z.leb_spec (Zpos m2) (Zpos m1));
    cbn; try reflexivity; lia.
Qed.

Lemma SFleb_trans x y z :
  SFleb x y = true -> SFleb y z = true -> SFleb x z = true.
Proof.
  destruct x as [sx|sx| |sx mx ex], y as [sy|sy| |sy my ey],
    z as [sz|sz| |sz mz ez];
    rewrite ?SFleb_finite;
    try (destruct sx); try (destruct sy); try (destruct sz);
    try reflexivity; try discriminate; lia.
Qed.

Lemma SFleb_total x y :
  x <> S754_nan -> y <> S754_nan -> SFleb x y = false -> SFleb y x = true.
Proof.
  destruct x as [sx|sx| |sx mx ex], y as [sy|sy| |sy my ey];
    rewrite ?SFleb_finite;
    try (destruct sx); try (destruct sy);
    try reflexivity; try discriminate; try congruence; lia.
Qed.
End FloatOrder.

Section ArgmaxFacts.
Local Open Scope nat_scope.

Lemma is_nan_false_SF x : is_nan x = false -> Prim2SF x <> S754_nan.
Proof. rewrite is_nan_spec. intros H E. rewrite E in H. discriminate. Qed.

Lemma leb_trans x y z :
  PrimFloat.leb x y = true -> PrimFloat.leb y z = true ->
  PrimFloat.leb x z = true.
Proof. rewrite !leb_spec. apply SFleb_trans. Qed.

Lemma leb_total x y :
  is_nan x = false -> is_nan y = false ->
  PrimFloat.leb x y = false -> PrimFloat.leb y x = true.
Proof.
  intros Hx Hy. rewrite !leb_spec.
  apply SFleb_total; now apply is_nan_false_SF.
Qed.

Lemma leb_refl x : is_nan x = false -> PrimFloat.leb x x = true.
Proof.
  intros Hx. destruct (PrimFloat.leb x x) eqn:E; [reflexivity|].
  rewrite <- E. now apply leb_total.
Qed.

Lemma argmax_scan_first_max l : forall pre mp best,
  Forall (fun x => is_nan x = false) l ->
  is_nan mp = false ->
  first_max pre best -> pre !! best = Some mp ->
  first_max (pre ++ l) (argmax_scan mp best (length pre) l).
Proof.
  induction l as [|x l IH]; intros pre mp best Hl Hmp Hfm Hbest;
    cbn [argmax_scan].
  - now rewrite app_nil_r.
  - inversion Hl as [|? ? Hx Hl']; subst.
    replace (pre ++ x :: l) with ((pre ++ [x]) ++ l) by now rewrite <- app_assoc.
    replace (S (length pre)) with (length (pre ++ [x]))
      by (rewrite length_app; cbn; lia).
    destruct Hfm as (m & Hm & Hge & Hlt).
    assert (m = mp) as -> by congruence.
    destruct (PrimFloat.leb x mp) eqn:Hle; cbn [negb].
    + apply (IH (pre ++ [x]) mp best); try assumption.
      * exists mp. split; [now apply lookup_app_l_Some|]. split.
        -- intros j y Hj. apply lookup_app_Some in Hj as [Hj|[_ Hj]].
           ++ eauto.
           ++ destruct (j - length pre); cbn in Hj; [|discriminate].
              now inversion Hj; subst.
        -- intros j y Hjb Hj. apply lookup_lt_Some in Hm.
           rewrite lookup_app_l in Hj by lia. eauto.
      * now apply lookup_app_l_Some.
    + rewrite Hx.
      assert (Hmx : PrimFloat.leb mp x = true) by now apply leb_total.
      apply (IH (pre ++ [x]) x (length pre)); try assumption.
      * exists x. split; [now apply list_lookup_middle|]. split.
        -- intros j y Hj. apply lookup_app_Some in Hj as [Hj|[_ Hj]].
           ++ eapply leb_trans; [eapply Hge; exact Hj | exact Hmx].
           ++ destruct (j - length pre); cbn in Hj; [|discriminate].
              inversion Hj; subst. now apply leb_refl.
        -- intros j y Hjb Hj. rewrite lookup_app_l in Hj by lia.
           destruct (PrimFloat.leb x y) eqn:Hxy; [|reflexivity].
           rewrite (leb_trans x y mp Hxy (Hge _ _ Hj)) in Hle. discriminate.
      * now apply list_lookup_middle.
Qed.

Lemma np_argmax_first_max (l : list float) (i : nat) :
  Forall (fun x => is_nan x = false) l ->
  np_argmax l = Ok i -> first_max l i.
Proof.
  destruct l as [|x l]; [discriminate|]. intros Hl.
  inversion Hl as [|? ? Hx Hl']; subst. cbn [np_argmax]. rewrite Hx.
  intros [= <-].
  apply (argmax_scan_first_max l [x] x 0); try assumption; try reflexivity.
  exists x. split; [reflexivity|]. split.
  - intros [|j] y Hj; cbn in Hj; [|discriminate].
    inversion Hj; subst. now apply leb_refl.
  - intros j y Hj. lia.
Qed.

Lemma leb_nan_l x y : is_nan x = true -> PrimFloat.leb x y = false.
Proof.
  rewrite is_nan_spec, leb_spec.
  destruct (Prim2SF x); try discriminate. reflexivity.
Qed.

Lemma argmax_scan_first_nan l : forall mp best i k x,
  l !! k = Some x -> is_nan x = true ->
  (forall j y, j < k -> l !! j = Some y -> is_nan y = false) ->
  argmax_scan mp best i l = i + k.
Proof.
  induction l as [|h l IH]; intros mp best i k x Hk Hx Hbefore; [discriminate|].
  cbn [argmax_scan]. destruct k as [|k]; cbn in Hk.
  - inversion Hk; subst. rewrite (leb_nan_l x mp Hx), Hx. cbn. lia.
  - assert (Hh : is_nan h = false) by (apply (Hbefore 0 h); [lia | reflexivity]).
    rewrite Hh.
    assert (Hrest : forall j y, j < k -> l !! j = Some y -> is_nan y = false).
    { intros j y Hj Hl. apply (Hbefore (S j) y); [lia | exact Hl]. }
    destruct (negb (PrimFloat.leb h mp));
      erewrite IH by eassumption; lia.
Qed.

Lemma np_argmax_first_nan (l : list float) (k : nat) (x : float) :
  l !! k = Some x -> is_nan x = true ->
  (forall j y, j < k -> l !! j = Some y -> is_nan y = false) ->
  np_argmax l = Ok k.
Proof.
  destruct l as [|h l]; [discriminate|]. intros Hk Hx Hbefore.
  cbn [np_argmax]. f_equal. destruct k as [|k]; cbn in Hk.
  - inversion Hk; subst. now rewrite Hx.
  - rewrite (Hbefore 0 h) by (lia || reflexivity).
    erewrite argmax_scan_first_nan; [reflexivity | exact Hk | exact Hx |].
    intros j y Hj Hl. apply (Hbefore (S j) y); [lia | exact Hl].
Qed.
End ArgmaxFacts.

(** ** The aphelion search *)

Section AphelionFacts.
Local Open Scope nat_scope.

Lemma argmax_scan_range l : forall mp best i,
  best < i -> argmax_scan mp best i l < i + length l.
Proof.
  induction l as [|x l IH]; intros mp best i Hlt; cbn [argmax_scan length].
  - lia.
  - destruct (negb (PrimFloat.leb x mp)).
    + destruct (is_nan x); [lia|].
      specialize (IH x i (S i)). lia.
    + specialize (IH mp best (S i)). lia.
Qed.

Lemma np_argmax_lt a j : np_argmax a = Ok j -> j < length a.
Proof.
  destruct a as [|x l]; [discriminate|]. cbn [np_argmax length].
  intros [= <-]. destruct (is_nan x); [lia|].
  pose proof (argmax_scan_range l x 0 1). lia.
Qed.

Lemma np_argmax_nonempty a :
  0 < length a -> exists j, np_argmax a = Ok j /\ j < length a.
Proof.
  destruct a as [|x l]; cbn [length]; [lia|]. intros _.
  eexists. split; [reflexivity|].
  apply (np_argmax_lt (x :: l)). reflexivity.
Qed.

Lemma cutoff_of_positive n c : cutoff_of n = Ok c -> 1 <= c.
Proof.
  unfold cutoff_of, rbind.
  destruct (py_int _) as [k|]; [|discriminate]. intros [= <-]. lia.
Qed.

Lemma cutoff_of_value n :
  (Z.of_nat n < 2 ^ 48)%Z -> cutoff_of n = Ok (Nat.max 1 (n / 20)).
Proof.
  intros Hn. unfold cutoff_of, py_int.
  rewrite trunc_five_percent by lia. cbn [rbind]. f_equal.
  rewrite <- (Nat2Z.id (Nat.max 1 (n / 20))). f_equal.
  rewrite Nat2Z.inj_max, Nat2Z.inj_div. reflexivity.
Qed.

(** C7. On a trajectory of fewer than two samples [compute_aphelion]
    raises: numpy's ValueError for the argmax of an empty sequence.  It
    does so whatever [v] is, an empty [v] included, so no row of the
    trajectory has been indexed when the error is reported. *)
Theorem compute_aphelion_short (r v : list vec) :
  length r < 2 ->
  compute_aphelion r v
  = Raise (ValueError "attempt to get argmax of an empty sequence").
Proof.
  intros Hlen. destruct r as [|x [|y r]]; cbn [length] in Hlen; try lia.
  - reflexivity.
  - unfold compute_aphelion. cbn [map np_argmax argmax_scan rbind].
    destruct (is_nan (Vec.norm x)); reflexivity.
Qed.

Lemma compute_aphelion_short_witness :
  compute_aphelion [(1, 0)%float] []
  = Raise (ValueError "attempt to get argmax of an empty sequence").
Proof. exact (compute_aphelion_short [(1, 0)%float] [] (le_n 2)). Defined.

Lemma aphelion_candidates (r : list vec) :
  2 <= length r ->
  (Z.of_nat (length r) < 2 ^ 48)%Z ->
  let distances := map Vec.norm r in
  let cutoff := Nat.max 1 (length r / 20) in
  exists i0 j,
    np_argmax distances = Ok i0
    /\ cutoff_of (length r) = Ok cutoff
    /\ np_argmax (drop cutoff distances) = Ok j
    /\ 1 <= cutoff
    /\ i0 < length r /\ j + cutoff < length r.
Proof.
  intros Hlen Hbig distances cutoff.
  assert (Hd : length distances = length r) by apply length_map.
  assert (Hcut : 1 <= cutoff < length r).
  { unfold cutoff.
    pose proof (Nat.Div0.div_lt_upper_bound (length r) 20 (length r)). lia. }
  destruct (np_argmax_nonempty distances ltac:(lia)) as (i0 & Hi0 & Hi0lt).
  destruct (np_argmax_nonempty (drop cutoff distances)) as (j & Hj & Hjlt).
  { rewrite length_drop. lia. }
  rewrite length_drop in Hjlt.
  exists i0, j. repeat split; try assumption; try lia.
  now apply cutoff_of_value.
Qed.

Lemma compute_aphelion_eval (r v : list vec) (i0 c j : nat) (pos vel : vec) :
  np_argmax (map Vec.norm r) = Ok i0 ->
  cutoff_of (length r) = Ok c ->
  np_argmax (drop c (map Vec.norm r)) = Ok j ->
  r !! (if Nat.eqb i0 0 then j + c else i0) = Some pos ->
  v !! (if Nat.eqb i0 0 then j + c else i0) = Some vel ->
  compute_aphelion r v
  = Ok (Vec.norm pos, vel, if Nat.eqb i0 0 then j + c else i0).
Proof.
  intros Hi0 Hc Hj Hpos Hvel. unfold compute_aphelion.
  rewrite Hi0. cbn [rbind].
  destruct (Nat.eqb i0 0).
  - rewrite Hc. cbn [rbind]. rewrite Hj. cbn [rbind]. unfold getitem.
    rewrite list_lookup_fmap, Hpos, Hvel. reflexivity.
  - cbn [rbind]. unfold getitem.
    rewrite list_lookup_fmap, Hpos, Hvel. reflexivity.
Qed.

(** C5. On a completed trajectory of N >= 2 samples (N below 2^48, as
    any array that fits in memory is) [compute_aphelion] takes the
    argmax [i0] of the norms of all position samples; exactly when
    [i0] is 0 it takes instead the argmax [j] of the norms from index
    [max(1, N // 20)] on and adds that cutoff back; it returns the
    norm of the position, the velocity and the index of the sample so
    selected.  When no norm is a NaN, each argmax is the first index of
    a greatest norm. *)
Theorem compute_aphelion_spec (r v : list vec) :
  2 <= length r ->
  (Z.of_nat (length r) < 2 ^ 48)%Z ->
  length v = length r ->
  let distances := map Vec.norm r in
  let cutoff := Nat.max 1 (length r / 20) in
  exists i0 j,
    np_argmax distances = Ok i0
    /\ np_argmax (drop cutoff distances) = Ok j
    /\ 1 <= cutoff
    /\ (Forall (fun d => is_nan d = false) distances ->
        first_max distances i0 /\ first_max (drop cutoff distances) j)
    /\ let idx := if Nat.eqb i0 0 then j + cutoff else i0 in
       exists pos vel,
         r !! idx = Some pos /\ v !! idx = Some vel
         /\ compute_aphelion r v = Ok (Vec.norm pos, vel, idx).
Proof.
  intros Hlen Hbig Hv distances cutoff.
  destruct (aphelion_candidates r Hlen Hbig)
    as (i0 & j & Hi0 & Hc & Hj & Hcut & Hi0lt & Hjlt).
  fold distances cutoff in Hi0, Hc, Hj, Hcut, Hjlt.
  exists i0, j.
  split; [assumption|]. split; [assumption|]. split; [assumption|].
  split.
  { intros Hnan. split; apply np_argmax_first_max; try assumption.
    now apply Forall_drop. }
  intros idx.
  assert (Hidx : idx < length r) by (unfold idx; destruct (Nat.eqb i0 0); lia).
  destruct (lookup_lt_is_Some_2 r idx Hidx) as [pos Hpos].
  destruct (lookup_lt_is_Some_2 v idx ltac:(lia)) as [vel Hvel].
  exists pos, vel. split; [assumption|]. split; [assumption|].
  now apply (compute_aphelion_eval r v i0 cutoff j).
Qed.

(** C10. On a trajectory of at least two position samples the index
    [compute_aphelion] returns is never 0: it is the unconstrained
    argmax when that is not 0, and otherwise an argmax offset by a
    cutoff of at least 1.  And it does return one whenever [v] is as
    long as [r] (and N is below 2^48). *)
Theorem compute_aphelion_index_positive (r v : list vec) :
  2 <= length r ->
  (forall d vel idx,
      compute_aphelion r v = Ok (d, vel, idx) -> 1 <= idx < length r)
  /\ ((Z.of_nat (length r) < 2 ^ 48)%Z -> length v = length r ->
      exists d vel idx,
        compute_aphelion r v = Ok (d, vel, idx) /\ 1 <= idx < length r).
Proof.
  intros Hlen.
  assert (Hpart : forall d vel idx,
             compute_aphelion r v = Ok (d, vel, idx) -> 1 <= idx < length r).
  { intros d vel idx. unfold compute_aphelion.
    destruct (np_argmax (map Vec.norm r)) as [i0|] eqn:Hi0; [|discriminate].
    cbn [rbind].
    destruct (Nat.eqb_spec i0 0) as [->|Hne].
    - destruct (cutoff_of (length r)) as [c|] eqn:Hc; [|discriminate].
      cbn [rbind]. apply cutoff_of_positive in Hc.
      destruct (np_argmax (drop c (map Vec.norm r))) as [j|]; [|discriminate].
      cbn [rbind]. unfold getitem.
      destruct (map Vec.norm r !! (j + c)) eqn:Hl; [|discriminate].
      apply lookup_lt_Some in Hl. rewrite length_map in Hl.
      cbn [rbind]. destruct (v !! (j + c)); [|discriminate].
      cbn [rbind]. intros [= _ _ <-]. lia.
    - cbn [rbind]. unfold getitem.
      destruct (map Vec.norm r !! i0) eqn:Hl; [|discriminate].
      apply lookup_lt_Some in Hl. rewrite length_map in Hl.
      cbn [rbind]. destruct (v !! i0); [|discriminate].
      cbn [rbind]. intros [= _ _ <-]. lia. }
  split; [exact Hpart|].
  intros Hbig Hv.
  destruct (aphelion_candidates r Hlen Hbig)
    as (i0 & j & Hi0 & Hc & Hj & _ & Hi0lt & Hjlt).
  set (idx := if Nat.eqb i0 0 then j + Nat.max 1 (length r / 20) else i0).
  assert (Hidx : idx < length r) by (unfold idx; destruct (Nat.eqb i0 0); lia).
  destruct (lookup_lt_is_Some_2 r idx Hidx) as [pos Hpos].
  destruct (lookup_lt_is_Some_2 v idx ltac:(lia)) as [vel Hvel].
  pose proof (compute_aphelion_eval r v i0 _ j pos vel Hi0 Hc Hj Hpos Hvel) as H.
  eexists _, _, _. split; [exact H | eapply Hpart; exact H].
Qed.

Lemma compute_aphelion_spec_witness :
  let r : list vec := [(30, 4); (1, 0); (0, 2); (6, 8); (1, 1)]%float in
  let v : list vec := [(0, 0); (1, 0); (2, 0); (3, 0); (4, 0)]%float in
  let distances := map Vec.norm r in
  let cutoff := Nat.max 1 (length r / 20) in
  exists i0 j,
    np_argmax distances = Ok i0
    /\ np_argmax (drop cutoff distances) = Ok j
    /\ 1 <= cutoff
    /\ (Forall (fun d => is_nan d = false) distances ->
        first_max distances i0 /\ first_max (drop cutoff distances) j)
    /\ let idx := if Nat.eqb i0 0 then j + cutoff else i0 in
       exists pos vel,
         r !! idx = Some pos /\ v !! idx = Some vel
         /\ compute_aphelion r v = Ok (Vec.norm pos, vel, idx).
Proof.
  exact (compute_aphelion_spec
           [(30, 4); (1, 0); (0, 2); (6, 8); (1, 1)]%float
           [(0, 0); (1, 0); (2, 0); (3, 0); (4, 0)]%float
           (le_S _ _ (le_S _ _ (le_S _ _ (le_n 2)))) eq_refl eq_refl).
Defined.

Lemma compute_aphelion_index_positive_witness :
  let r : list vec := [(30, 4); (1, 0); (0, 2); (6, 8); (1, 1)]%float in
  let v : list vec := [(0, 0); (1, 0); (2, 0); (3, 0); (4, 0)]%float in
  (forall d vel idx,
      compute_aphelion r v = Ok (d, vel, idx) -> 1 <= idx < length r)
  /\ ((Z.of_nat (length r) < 2 ^ 48)%Z -> length v = length r ->
      exists d vel idx,
        compute_aphelion r v = Ok (d, vel, idx) /\ 1 <= idx < length r).
Proof.
  exact (compute_aphelion_index_positive
           [(30, 4); (1, 0); (0, 2); (6, 8); (1, 1)]%float
           [(0, 0); (1, 0); (2, 0); (3, 0); (4, 0)]%float
           (le_S _ _ (le_S _ _ (le_S _ _ (le_n 2))))).
Defined.
End AphelionFacts.

(** ** The time grid and the length of the arrays *)

Section TimeGridFacts.
Local Open Scope Z_scope.

Lemma to_float_int (z : Z) :
  0 < z < 2 ^ 52 ->
  to_float (PyInt z) = Ok (Z2F z) /\ is_zero (Z2F z) = false.
Proof.
  intros Hz.
  destruct (bits_of_bounded z 52 ltac:(lia)) as (d & Hd & Hbits).
  destruct (Z2F_normal z d Hd Hbits) as (A & _ & HSF).
  unfold to_float. rewrite is_infinity_spec, is_zero_spec, HSF. auto.
Qed.

Lemma py_truediv_int (a b : Z) :
  0 < a < 2 ^ 52 -> 0 < b < 2 ^ 52 ->
  py_truediv (PyInt a) (PyInt b) = Ok (Z2F a / Z2F b)%float.
Proof.
  intros Ha Hb. unfold py_truediv.
  destruct (to_float_int a Ha) as [-> _].
  destruct (to_float_int b Hb) as [-> Hnz].
  cbn [rbind]. rewrite Hnz. reflexivity.
Qed.

Lemma quotient_int_nonzero (a b : Z) :
  0 < a < 2 ^ 52 -> 0 < b < 2 ^ 52 ->
  is_zero (Z2F a / Z2F b)%float = false.
Proof.
  intros Ha Hb. pose proof (ceil_int_quotient a b Ha Hb) as Hc.
  pose proof (Zceil_div_bounds a b ltac:(lia)) as Hk.
  rewrite is_zero_spec.
  destruct (Prim2SF (Z2F a / Z2F b)%float); try reflexivity.
  cbn [SF_ceil] in Hc. injection Hc as Hc. nia.
Qed.

Lemma arange_len_int (a b : Z) :
  0 < a < 2 ^ 52 -> 0 < b < 2 ^ 52 ->
  arange_len (PyInt 0) (PyInt a) (PyInt b) = Ok (Z.to_nat (Zceil_div a b)).
Proof.
  intros Ha Hb. unfold arange_len, calc_length. cbn [py_sub rbind].
  rewrite Z.sub_0_r, py_truediv_int by assumption. cbn [rbind].
  rewrite ceil_int_quotient, quotient_int_nonzero by assumption.
  pose proof (Zceil_div_bounds a b ltac:(lia)) as Hk.
  assert (Hrange : 1 <= Zceil_div a b <= a) by nia.
  destruct (Z.ltb_spec (Zceil_div a b) (- 2 ^ 63)); [lia|].
  destruct (Z.ltb_spec (2 ^ 63) (Zceil_div a b)); [lia|]. reflexivity.
Qed.

(** The grid of integers from 0. *)
Lemma np_arange_values (a b : Z) :
  0 < a < 2 ^ 52 -> 0 < b < 2 ^ 52 ->
  np_arange (PyInt 0) (PyInt a) (PyInt b)
  = Ok (map (fun i => PyInt (Z.of_nat i * b))
            (seq 0 (Z.to_nat (Zceil_div a b)))).
Proof.
  intros Ha Hb. unfold np_arange. rewrite arange_len_int by assumption.
  cbn [rbind].
  destruct (Z.to_nat (Zceil_div a b)) as [|n]; [reflexivity|].
  cbn [py_add as_size_error rbind]. f_equal.
  apply map_ext. intros i. f_equal. lia.
Qed.

Lemma np_arange_int (a b : Z) :
  0 < a < 2 ^ 52 -> 0 < b < 2 ^ 52 ->
  exists t, np_arange (PyInt 0) (PyInt a) (PyInt b) = Ok t
            /\ length t = Z.to_nat (Zceil_div a b).
Proof.
  intros Ha Hb. eexists. split; [now apply np_arange_values|].
  now rewrite length_map, length_seq.
Qed.

(** C9, as the code has it.  With integer settings (a time step and a
    total of [days * 24 * 3600] seconds, both positive and below 2^52)
    [get_time_settings] returns a grid, and [initialize_arrays] two
    arrays, of exactly N = ceil(total / time_step) samples: the floor
    of the quotient when the time step divides the total, and one more
    otherwise. *)
Theorem time_grid_length (cfg planet_cfg : gmap string json)
        (days step : Z) (r0 v0 : vec) :
  time_step_of cfg = Ok (JNum (PyInt step)) ->
  sim_days_of cfg planet_cfg = JNum (PyInt days) ->
  0 < step < 2 ^ 52 ->
  0 < days * 24 * 3600 < 2 ^ 52 ->
  let total := days * 24 * 3600 in
  let N := Z.to_nat (Zceil_div total step) in
  exists t r v,
    get_time_settings cfg planet_cfg = Ok (JNum (PyInt step), t)
    /\ initialize_arrays r0 v0 t = Ok (r, v)
    /\ length t = N /\ length r = N /\ length v = N
    /\ (Z.of_nat N = total / step + (if Z.eqb (total mod step) 0 then 0 else 1)).
Proof.
  intros Hstep Hdays Hs Ht total N.
  destruct (np_arange_int total step Ht Hs) as (t & Harange & Hlen).
  pose proof (Zceil_div_bounds total step ltac:(lia)) as Hk.
  assert (HN : 1 <= Zceil_div total step) by nia.
  destruct (length t) as [|n] eqn:El; [fold N in Hlen; lia|].
  exists t, (r0 :: replicate n Vec.zeros), (v0 :: replicate n Vec.zeros).
  split.
  { unfold get_time_settings. rewrite Hstep, Hdays.
    cbn [rbind as_number arange_step py_mul]. fold total. rewrite Harange. reflexivity. }
  split; [now apply initialize_arrays_ok|].
  split; [rewrite El; exact Hlen|].
  split; [cbn [length]; rewrite length_replicate; exact Hlen|].
  split; [cbn [length]; rewrite length_replicate; exact Hlen|].
  unfold N. rewrite Z2Nat.id by lia.
  pose proof (Z.div_mod total step ltac:(lia)) as Hdm.
  pose proof (Z.mod_pos_bound total step ltac:(lia)) as Hr.
  apply Zceil_div_unique; [lia|].
  destruct (Z.eqb_spec (total mod step) 0) as [H0|H0]; nia.
Qed.

Lemma time_grid_length_witness :
  let total := 1 * 24 * 3600 in
  let N := Z.to_nat (Zceil_div total 7000) in
  exists t r v,
    get_time_settings cfg_coarse no_planet_cfg = Ok (JNum (PyInt 7000), t)
    /\ initialize_arrays (1, 0)%float (0, 1)%float t = Ok (r, v)
    /\ length t = N /\ length r = N /\ length v = N
    /\ (Z.of_nat N
        = total / 7000 + (if Z.eqb (total mod 7000) 0 then 0 else 1)).
Proof.
  exact (time_grid_length cfg_coarse no_planet_cfg 1 7000
           (1, 0)%float (0, 1)%float
           eq_refl eq_refl (conj eq_refl eq_refl) (conj eq_refl eq_refl)).
Defined.

(** C9, the claim as written fails when the time step does not divide
    the simulated time: one day at a step of 7000 s gives 13 samples,
    and the floor of 86400 / 7000 is 12. *)
Lemma time_grid_not_floor :
  exists t r v,
    get_time_settings cfg_coarse no_planet_cfg = Ok (JNum (PyInt 7000), t)
    /\ initialize_arrays (1, 0)%float (0, 1)%float t = Ok (r, v)
    /\ length t = 13%nat /\ length r = 13%nat /\ length v = 13%nat
    /\ 1 * 24 * 3600 / 7000 = 12.
Proof.
  eexists _, _, _. vm_compute. repeat split; reflexivity.
Qed.
End TimeGridFacts.

(** ** run_integration on arrays that already hold values *)

Section IntegrationMore.
Local Open Scope float_scope.
Local Open Scope nat_scope.

(** run_integration on any two arrays of the same length. *)
Lemma run_integration_rows method dt a x y post_r post_v c :
  accepted (lower method) ->
  length post_v = length post_r ->
  run_integration method dt (pure_fn a) (mkStore (x :: post_r) (y :: post_v) c)
  = (Ok tt,
     mkStore
       (map fst (orbit (formula_of (lower method) dt a)
                       (S (length post_r)) (x, y)))
       (map snd (orbit (formula_of (lower method) dt a)
                       (S (length post_r)) (x, y)))
       (c ++ concat (map (points_of (lower method) dt a)
                         (orbit (formula_of (lower method) dt a)
                                (length post_r) (x, y))))).
Proof.
  intros Hm Hlen. unfold run_integration, bind, len_r, range1.
  cbn [r_buf length]. rewrite Nat.sub_succ, Nat.sub_0_r.
  exact (for_each_orbit (lower method) dt a Hm post_r post_v [] [] x y c
           eq_refl Hlen).
Qed.

(** X2. With a method name that lowercases to 'euler' or 'rk4' and an
    acceleration function that returns, run_integration on arrays r
    and v of the same length N >= 1 returns normally, and what it
    leaves in them depends on their rows 0 only: any other two arrays
    of length N with the same rows 0 end with the same contents. What
    rows 1 to N-1 held before is overwritten and never read. *)
Theorem run_integration_overwrites (method : string) (dt : float)
        (a : vec -> vec) (r v : list vec) (c : list vec) :
  accepted (lower method) ->
  1 <= length r -> length v = length r ->
  exists r' v' c',
    run_integration method dt (pure_fn a) (mkStore r v c)
    = (Ok tt, mkStore r' v' c')
    /\ forall r2 v2 c2,
        length r2 = length r -> length v2 = length r ->
        r2 !! 0 = r !! 0 -> v2 !! 0 = v !! 0 ->
        exists c2',
          run_integration method dt (pure_fn a) (mkStore r2 v2 c2)
          = (Ok tt, mkStore r' v' c2').
Proof.
  intros Hm Hr Hv.
  destruct r as [|x post_r]; [cbn in Hr; lia|].
  destruct v as [|y post_v]; [discriminate|].
  cbn [length] in Hv. injection Hv as Hv.
  eexists _, _, _. split; [apply run_integration_rows; assumption|].
  intros r2 v2 c2 Hr2 Hv2 H0r H0v.
  destruct r2 as [|x2 post_r2]; [discriminate|].
  destruct v2 as [|y2 post_v2]; [discriminate|].
  cbn in H0r, H0v. injection H0r as ->. injection H0v as ->.
  cbn [length] in Hr2, Hv2. injection Hr2 as Hr2. injection Hv2 as Hv2.
  eexists. rewrite run_integration_rows by (try assumption; lia).
  rewrite Hr2. reflexivity.
Qed.

Lemma run_integration_overwrites_witness :
  let method := "Euler"%string in
  let dt := 1%float in
  let a : vec -> vec := fun x => ((- 1) ~* x)%V%float in
  let r : list vec := [(1, 0); (5, 5)]%float in
  let v : list vec := [(0, 1); (7, 7)]%float in
  exists r' v' c',
    run_integration method dt (pure_fn a) (mkStore r v [])
    = (Ok tt, mkStore r' v' c')
    /\ forall r2 v2 c2,
        length r2 = length r -> length v2 = length r ->
        r2 !! 0%nat = r !! 0%nat -> v2 !! 0%nat = v !! 0%nat ->
        exists c2',
          run_integration method dt (pure_fn a) (mkStore r2 v2 c2)
          = (Ok tt, mkStore r' v' c2').
Proof.
  exact (run_integration_overwrites "Euler" 1
           (fun x => ((- 1) ~* x)%V%float)
           [(1, 0); (5, 5)]%float [(0, 1); (7, 7)]%float []
           (or_introl eq_refl) (le_S _ _ (le_n 1)) eq_refl).
Defined.

(** X3. With a method name that lowercases to 'euler' or 'rk4', an
    acceleration function that returns, and arrays r and v of the same
    length N >= 1, running run_integration a second time on the arrays
    it has filled leaves every row as it is. *)
Theorem run_integration_idempotent (method : string) (dt : float)
        (a : vec -> vec) (r v : list vec) (c : list vec) :
  accepted (lower method) ->
  1 <= length r -> length v = length r ->
  exists r' v' c' c'',
    run_integration method dt (pure_fn a) (mkStore r v c)
    = (Ok tt, mkStore r' v' c')
    /\ run_integration method dt (pure_fn a) (mkStore r' v' c')
       = (Ok tt, mkStore r' v' c'').
Proof.
  intros Hm Hr Hv.
  destruct r as [|x post_r]; [cbn in Hr; lia|].
  destruct v as [|y post_v]; [discriminate|].
  cbn [length] in Hv. injection Hv as Hv.
  eexists _, _, _, _. split; [apply run_integration_rows; assumption|].
  cbn [orbit map fst snd].
  rewrite run_integration_rows; [|assumption|now rewrite !length_map, !orbit_length].
  rewrite !length_map, !orbit_length. reflexivity.
Qed.

Lemma run_integration_idempotent_witness :
  let method := "rk4"%string in
  let dt := 1%float in
  let a : vec -> vec := fun x => ((- 1) ~* x)%V%float in
  let r : list vec := [(1, 0); (5, 5); (6, 6)]%float in
  let v : list vec := [(0, 1); (7, 7); (8, 8)]%float in
  exists r' v' c' c'',
    run_integration method dt (pure_fn a) (mkStore r v [])
    = (Ok tt, mkStore r' v' c')
    /\ run_integration method dt (pure_fn a) (mkStore r' v' c')
       = (Ok tt, mkStore r' v' c'').
Proof.
  exact (run_integration_idempotent "rk4" 1
           (fun x => ((- 1) ~* x)%V%float)
           [(1, 0); (5, 5); (6, 6)]%float [(0, 1); (7, 7); (8, 8)]%float []
           (or_intror eq_refl) (le_S _ _ (le_S _ _ (le_n 1))) eq_refl).
Defined.
End IntegrationMore.

(** ** What the loop and the steppers leave alone *)

Section Frame.
Local Open Scope nat_scope.

Lemma keeps_refl st : keeps st st.
Proof. repeat split. exists []. now rewrite app_nil_r. Qed.

Lemma keeps_trans st1 st2 st3 : keeps st1 st2 -> keeps st2 st3 -> keeps st1 st3.
Proof.
  intros (? & ? & ? & ? & n1 & ?) (? & ? & ? & ? & n2 & ?).
  repeat split; try congruence.
  exists (n1 ++ n2). rewrite app_assoc. congruence.
Qed.

Lemma keeps_bind {A B} (m : Run A) (k : A -> Run B) st :
  keeps st (snd (m st)) ->
  (forall a st', keeps st' (snd (k a st'))) ->
  keeps st (snd (bind m k st)).
Proof.
  intros Hm Hk. unfold bind. destruct (m st) as [[a|e] st'] eqn:E; cbn in *.
  - eapply keeps_trans; [exact Hm | apply Hk].
  - exact Hm.
Qed.

Lemma keeps_get_r i st : keeps st (snd (get_r i st)).
Proof. apply keeps_refl. Qed.

Lemma keeps_get_v i st : keeps st (snd (get_v i st)).
Proof. apply keeps_refl. Qed.

Lemma keeps_call acc_fn x st : keeps st (snd (call acc_fn x st)).
Proof. repeat split. now exists [x]. Qed.

Lemma keeps_set_r i x st : 1 <= i -> keeps st (snd (set_r i x st)).
Proof.
  intros Hi. unfold set_r, setitem.
  destruct (decide (i < length (r_buf st))); cbn; [|apply keeps_refl].
  repeat split; cbn.
  - apply length_insert.
  - apply list_lookup_insert_ne. lia.
  - exists []. now rewrite app_nil_r.
Qed.

Lemma keeps_set_v i x st : 1 <= i -> keeps st (snd (set_v i x st)).
Proof.
  intros Hi. unfold set_v, setitem.
  destruct (decide (i < length (v_buf st))); cbn; [|apply keeps_refl].
  repeat split; cbn.
  - apply length_insert.
  - apply list_lookup_insert_ne. lia.
  - exists []. now rewrite app_nil_r.
Qed.

Lemma keeps_ret {A} (a : A) st : keeps st (snd (ret a st)).
Proof. apply keeps_refl. Qed.

Lemma keeps_euler_step r v dt acc_fn st :
  keeps st (snd (euler_step r v dt acc_fn st)).
Proof.
  unfold euler_step. apply keeps_bind; [apply keeps_call|].
  intros. apply keeps_ret.
Qed.

Lemma keeps_rk4_step r v dt acc_fn st :
  keeps st (snd (rk4_step r v dt acc_fn st)).
Proof.
  unfold rk4_step.
  repeat (apply keeps_bind; [apply keeps_call|]; intros).
  apply keeps_ret.
Qed.

Lemma keeps_loop_body method dt acc_fn i st :
  1 <= i -> keeps st (snd (loop_body method dt acc_fn i st)).
Proof.
  intros Hi. unfold loop_body.
  destruct (String.eqb method "euler"); [|destruct (String.eqb method "rk4")].
  - apply keeps_bind; [apply keeps_get_r|]. intros r_old st1.
    apply keeps_bind; [apply keeps_get_v|]. intros v_old st2.
    apply keeps_bind; [apply keeps_euler_step|]. intros [r_new v_new] st3.
    apply keeps_bind; [now apply keeps_set_r|]. intros _ st4.
    now apply keeps_set_v.
  - apply keeps_bind; [apply keeps_get_r|]. intros r_old st1.
    apply keeps_bind; [apply keeps_get_v|]. intros v_old st2.
    apply keeps_bind; [apply keeps_rk4_step|]. intros [r_new v_new] st3.
    apply keeps_bind; [now apply keeps_set_r|]. intros _ st4.
    now apply keeps_set_v.
  - apply keeps_refl.
Qed.

Lemma keeps_for_each idxs body :
  (forall i st, In i idxs -> keeps st (snd (body i st))) ->
  forall st, keeps st (snd (for_each idxs body st)).
Proof.
  induction idxs as [|i idxs IH]; intros Hbody st; cbn [for_each].
  - apply keeps_refl.
  - apply keeps_bind.
    + apply Hbody. now left.
    + intros _ st'. apply IH. intros j st'' Hj. apply Hbody. now right.
Qed.

(** X1. Whatever the method name, the acceleration function and the
    arrays, and whether it returns or raises, run_integration leaves
    the lengths of r and v and their rows 0 as they were, and the
    calls of the acceleration function made before it stay on record
    in front of the ones it adds. *)
Theorem run_integration_frame (method : string) (dt : float)
        (acc_fn : callable) (st : store) :
  let st' := snd (run_integration method dt acc_fn st) in
  length (r_buf st') = length (r_buf st)
  /\ length (v_buf st') = length (v_buf st)
  /\ r_buf st' !! 0 = r_buf st !! 0
  /\ v_buf st' !! 0 = v_buf st !! 0
  /\ exists new, acc_calls st' = acc_calls st ++ new.
Proof.
  unfold run_integration.
  apply (keeps_bind len_r); [apply keeps_refl|].
  intros n st'. apply keeps_for_each.
  intros i st'' Hi. apply keeps_loop_body.
  unfold range1 in Hi. apply in_seq in Hi. lia.
Qed.

(** X7. With any acceleration function, rk4_step touches neither array
    and calls the function first at the position it starts from. When
    it returns it has made exactly four calls; when it raises it has
    made at most four, and the exception is the one the last of them
    raised. *)
Theorem rk4_step_calls (r v : vec) (dt : float) (acc_fn : callable)
        (st : store) :
  let out := rk4_step r v dt acc_fn st in
  r_buf (snd out) = r_buf st
  /\ v_buf (snd out) = v_buf st
  /\ exists rest,
      acc_calls (snd out) = acc_calls st ++ r :: rest
      /\ match fst out with
         | Ok _ => length rest = 3
         | Raise e => length rest <= 3
                      /\ acc_fn (List.last rest r) = Raise e
         end.
Proof.
  unfold rk4_step, bind, call, ret. cbn [r_buf v_buf acc_calls].
  destruct (acc_fn r) as [k1|e1] eqn:E1; cbn.
  2:{ split; [reflexivity|]. split; [reflexivity|]. exists [].
      split; [reflexivity|]. split; [cbn; lia | exact E1]. }
  match goal with |- context [match acc_fn ?p with _ => _ end] =>
    destruct (acc_fn p) as [k2|e2] eqn:E2 end; cbn.
  2:{ split; [reflexivity|]. split; [reflexivity|]. eexists [_].
      rewrite <- app_assoc.
      split; [reflexivity|]. split; [cbn; lia | exact E2]. }
  match goal with |- context [match acc_fn ?p with _ => _ end] =>
    destruct (acc_fn p) as [k3|e3] eqn:E3 end; cbn.
  2:{ split; [reflexivity|]. split; [reflexivity|]. eexists [_; _].
      rewrite <- !app_assoc.
      split; [reflexivity|]. split; [cbn; lia | exact E3]. }
  match goal with |- context [match acc_fn ?p with _ => _ end] =>
    destruct (acc_fn p) as [k4|e4] eqn:E4 end; cbn.
  2:{ split; [reflexivity|]. split; [reflexivity|]. eexists [_; _; _].
      rewrite <- !app_assoc.
      split; [reflexivity|]. split; [cbn; lia | exact E4]. }
  split; [reflexivity|]. split; [reflexivity|]. eexists [_; _; _].
  rewrite <- !app_assoc. split; reflexivity.
Qed.
End Frame.

(** ** Failures inside the loop *)

Section IntegrationFailures.
Local Open Scope float_scope.
Local Open Scope nat_scope.

Lemma stepper_of_raises method r v dt acc_fn e st :
  acc_fn r = Raise e ->
  stepper_of method r v dt acc_fn st
  = (Raise e, mkStore (r_buf st) (v_buf st) (acc_calls st ++ [r])).
Proof.
  intros He. unfold stepper_of.
  destruct (String.eqb method "euler");
    unfold euler_step, rk4_step, bind, call; rewrite He; reflexivity.
Qed.

Lemma loop_body_stepper method dt acc_fn i st :
  accepted method ->
  loop_body method dt acc_fn i st
  = bind (get_r (i - 1)) (fun r_old =>
    bind (get_v (i - 1)) (fun v_old =>
    bind (stepper_of method r_old v_old dt acc_fn) (fun '(r_new, v_new) =>
    bind (set_r i r_new) (fun _ => set_v i v_new)))) st.
Proof.
  intros Hm. unfold loop_body, stepper_of.
  destruct (accepted_eqb method Hm) as [-> | [-> ->]]; reflexivity.
Qed.

(** X5. If the acceleration function raises at the initial position
    r[0], run_integration with an accepted method on arrays of at
    least two rows raises that exception in its first pass: the
    function has been called once, at r[0], and no row has been
    written. *)
Theorem run_integration_acc_raises (method : string) (dt : float)
        (acc_fn : callable) (r v c : list vec) (r0 v0 : vec) (e : exn) :
  accepted (lower method) ->
  2 <= length r ->
  r !! 0 = Some r0 -> v !! 0 = Some v0 ->
  acc_fn r0 = Raise e ->
  run_integration method dt acc_fn (mkStore r v c)
  = (Raise e, mkStore r v (c ++ [r0])).
Proof.
  intros Hm Hlen Hr Hv He.
  unfold run_integration, bind at 1, len_r, range1. cbn [r_buf].
  destruct (length r) as [|[|n]] eqn:En; try lia.
  cbn [Nat.sub seq for_each]. unfold bind at 1.
  rewrite loop_body_stepper by assumption.
  unfold bind, get_r, get_v, getitem. cbn [Nat.sub r_buf v_buf].
  rewrite Hr, Hv. rewrite (stepper_of_raises _ _ _ _ _ e) by assumption.
  reflexivity.
Qed.

Lemma run_integration_acc_raises_witness :
  let r : list vec := [(1, 0); (0, 0)]%float in
  let v : list vec := [(0, 1); (0, 0)]%float in
  run_integration "RK4" 3600 failing_fn (mkStore r v [])
  = (Raise ZeroDivisionError, mkStore r v ([] ++ [(1, 0)%float])).
Proof.
  exact (run_integration_acc_raises "RK4" 3600 failing_fn
           [(1, 0); (0, 0)]%float [(0, 1); (0, 0)]%float []
           (1, 0)%float (0, 1)%float ZeroDivisionError
           (or_intror eq_refl) (le_n 2) eq_refl eq_refl eq_refl).
Defined.

Lemma for_each_app idxs1 idxs2 body st :
  for_each (idxs1 ++ idxs2) body st
  = match for_each idxs1 body st with
    | (Ok _, st') => for_each idxs2 body st'
    | (Raise e, st') => (Raise e, st')
    end.
Proof.
  revert st. induction idxs1 as [|i idxs1 IH]; intros st; cbn [app for_each].
  - reflexivity.
  - unfold bind. destruct (body i st) as [[[]|e] st']; [apply IH | reflexivity].
Qed.

(** The first [n] passes of the loop on arrays that have at least [n]
    rows to fill. *)
Lemma for_each_orbit_prefix method dt a :
  accepted method ->
  forall post_r post_v rest_r rest_v pre_r pre_v x y c,
    length pre_v = length pre_r ->
    length post_v = length post_r ->
    for_each (seq (S (length pre_r)) (length post_r))
             (loop_body method dt (pure_fn a))
             (mkStore (pre_r ++ x :: post_r ++ rest_r)
                      (pre_v ++ y :: post_v ++ rest_v) c)
    = (Ok tt,
       mkStore
         (pre_r ++ map fst (orbit (formula_of method dt a)
                                  (S (length post_r)) (x, y)) ++ rest_r)
         (pre_v ++ map snd (orbit (formula_of method dt a)
                                  (S (length post_r)) (x, y)) ++ rest_v)
         (c ++ concat (map (points_of method dt a)
                           (orbit (formula_of method dt a)
                                  (length post_r) (x, y))))).
Proof.
  intros Hm. induction post_r as [|p post_r IH];
    intros post_v rest_r rest_v pre_r pre_v x y c Hpre Hpost.
  - destruct post_v; [|discriminate]. cbn. now rewrite app_nil_r.
  - destruct post_v as [|q post_v]; [discriminate|].
    cbn [length seq for_each app]. unfold bind at 1.
    rewrite loop_body_accepted by assumption.
    set (s' := formula_of method dt a (x, y)).
    specialize (IH post_v rest_r rest_v (pre_r ++ [x]) (pre_v ++ [y])
                   (fst s') (snd s') (c ++ points_of method dt a (x, y))).
    rewrite !length_app in IH. cbn [length] in IH.
    replace (length pre_r + 1)%nat with (S (length pre_r)) in IH by lia.
    rewrite <- !app_assoc in IH. cbn [app] in IH.
    rewrite IH by (cbn in *; lia).
    rewrite <- surjective_pairing.
    cbn [orbit map concat app]. fold s'.
    reflexivity.
Qed.

(** X6. When v has fewer rows than r (k + 1 against at least k + 2),
    run_integration computes rows 1 to k of both arrays and raises
    IndexError in the pass for row k + 1, after that row of r has been
    stored: the assignment r[i], v[i] = ... stores r[i] first. The
    rows of r after k + 1 are untouched, and the acceleration function
    has been called for k + 1 steps. *)
Theorem run_integration_short_v (method : string) (dt : float)
        (a : vec -> vec) (x y : vec) (post_r post_v rest_r : list vec)
        (q : vec) (c : list vec) :
  accepted (lower method) ->
  length post_v = length post_r ->
  let f := formula_of (lower method) dt a in
  let k := length post_r in
  run_integration method dt (pure_fn a)
    (mkStore (x :: post_r ++ q :: rest_r) (y :: post_v) c)
  = (Raise IndexError,
     mkStore (map fst (orbit f (S (S k)) (x, y)) ++ rest_r)
             (map snd (orbit f (S k) (x, y)))
             (c ++ concat (map (points_of (lower method) dt a)
                               (orbit f (S k) (x, y))))).
Proof.
  intros Hm Hlen f k.
  unfold run_integration, bind at 1, len_r, range1. cbn [r_buf length].
  rewrite Nat.sub_succ, Nat.sub_0_r, length_app. cbn [length].
  replace (length post_r + S (length rest_r))
    with (k + (1 + length rest_r)) by (unfold k; lia).
  rewrite seq_app, for_each_app.
  pose proof (for_each_orbit_prefix (lower method) dt a Hm
                post_r post_v (q :: rest_r) [] [] [] x y c eq_refl Hlen) as H.
  cbn [app length] in H. rewrite app_nil_r in H. fold k f in H.
  rewrite H. clear H.
  (* the pass that fails *)
  cbn [seq for_each Nat.add]. unfold bind at 1.
  assert (Ho : exists pre s,
             orbit f (S k) (x, y) = pre ++ [s] /\ length pre = k
             /\ orbit f (S (S k)) (x, y) = pre ++ [s; f s]
             /\ orbit f k (x, y) = pre).
  { clear. generalize (x, y) as s0. induction k as [|k IH]; intros s0.
    - exists [], s0. repeat split.
    - destruct (IH (f s0)) as (pre & s & H1 & H2 & H3 & H4).
      exists (s0 :: pre), s. cbn [orbit] in *.
      rewrite H1, H3, H4. cbn. repeat split. now rewrite H2. }
  destruct Ho as (pre & [sr sv] & Ho1 & Hpre & Ho2 & Ho3).
  rewrite Ho1, Ho2. rewrite !map_app. cbn [map fst snd].
  rewrite <- !app_assoc. cbn [app].
  rewrite loop_body_stepper by assumption.
  assert (Hl1 : length (map fst pre) = k) by now rewrite length_map.
  assert (Hl2 : length (map snd pre) = k) by now rewrite length_map.
  assert (Hg1 : getitem (map fst pre ++ sr :: q :: rest_r) k = Ok sr).
  { rewrite <- Hl1 at 1. apply getitem_middle. }
  assert (Hg2 : getitem (map snd pre ++ [sv]) k = Ok sv).
  { rewrite <- Hl2 at 1. apply getitem_middle. }
  assert (Hs1 : forall z, setitem (map fst pre ++ sr :: q :: rest_r) (S k) z
                          = Ok (map fst pre ++ sr :: z :: rest_r)).
  { intros z. rewrite <- Hl1 at 1. apply setitem_next. }
  assert (Hs2 : forall z, setitem (map snd pre ++ [sv]) (S k) z = Raise IndexError).
  { intros z. unfold setitem. rewrite decide_False; [reflexivity|].
    rewrite length_app. cbn. lia. }
  unfold bind, get_r, get_v. cbn [r_buf v_buf acc_calls].
  replace (S k - 1) with k by lia.
  rewrite Hg1, Hg2, stepper_of_pure. fold f.
  destruct (f (sr, sv)) as [r_new v_new] eqn:Ef.
  unfold set_r, set_v, record_calls. cbn [r_buf v_buf acc_calls].
  rewrite Hs1. cbn [r_buf v_buf acc_calls]. rewrite Hs2.
  cbn [fst snd]. f_equal. f_equal.
  rewrite Ho3, concat_app. cbn [concat].
  now rewrite app_nil_r, <- !app_assoc.
Qed.

Lemma run_integration_short_v_witness :
  let method := "euler"%string in
  let dt := 1%float in
  let a : vec -> vec := fun x => ((- 1) ~* x)%V%float in
  let x : vec := (1, 0)%float in
  let y : vec := (0, 1)%float in
  let f := formula_of (lower method) dt a in
  run_integration method dt (pure_fn a)
    (mkStore (x :: [(0, 0)%float] ++ (0, 0)%float :: [(9, 9)%float])
             (y :: [(0, 0)%float]) [])
  = (Raise IndexError,
     mkStore (map fst (orbit f 3 (x, y)) ++ [(9, 9)%float])
             (map snd (orbit f 2 (x, y)))
             ([] ++ concat (map (points_of (lower method) dt a)
                                (orbit f 2 (x, y))))).
Proof.
  exact (run_integration_short_v "euler" 1
           (fun x => ((- 1) ~* x)%V%float) (1, 0)%float (0, 1)%float
           [(0, 0)%float] [(0, 0)%float] [(9, 9)%float] (0, 0)%float []
           (or_introl eq_refl) eq_refl).
Defined.
End IntegrationFailures.

(** ** A longer time grid, and the symmetry of the acceleration *)

Section Prefix.
Local Open Scope float_scope.
Local Open Scope nat_scope.

Lemma orbit_take f n k s : take n (orbit f (n + k) s) = orbit f n s.
Proof.
  revert s. induction n as [|n IH]; intros s; cbn; [reflexivity|].
  now rewrite IH.
Qed.

(** X4. A longer time grid extends the trajectory without changing it:
    for the same initial state, step, method and acceleration
    function, the arrays computed for a grid of n1 >= 1 points are the
    first n1 rows of the arrays computed for a grid of n2 >= n1
    points. *)
Theorem run_integration_prefix {T1 T2 : Type} (method : string)
        (r0 v0 : vec) (dt : float) (a : vec -> vec)
        (t1 : list T1) (t2 : list T2) :
  accepted (lower method) ->
  1 <= length t1 <= length t2 ->
  exists ra va rb vb r1 v1 c1 r2 v2 c2,
    initialize_arrays r0 v0 t1 = Ok (ra, va)
    /\ initialize_arrays r0 v0 t2 = Ok (rb, vb)
    /\ run_integration method dt (pure_fn a) (mkStore ra va [])
       = (Ok tt, mkStore r1 v1 c1)
    /\ run_integration method dt (pure_fn a) (mkStore rb vb [])
       = (Ok tt, mkStore r2 v2 c2)
    /\ r1 = take (length t1) r2 /\ v1 = take (length t1) v2.
Proof.
  intros Hm [H1 H2].
  destruct (length t1) as [|n1] eqn:E1; [lia|].
  destruct (length t2) as [|n2] eqn:E2; [lia|].
  eexists _, _, _, _, _, _, _, _, _, _.
  split; [apply (initialize_arrays_ok r0 v0 t1 n1 E1)|].
  split; [apply (initialize_arrays_ok r0 v0 t2 n2 E2)|].
  split; [now apply run_integration_orbit|].
  split; [now apply run_integration_orbit|].
  replace (S n2) with (S n1 + (n2 - n1)) by lia.
  rewrite !firstn_map, orbit_take. split; reflexivity.
Qed.

Lemma run_integration_prefix_witness :
  let method := "rk4"%string in
  let r0 : vec := (1, 0)%float in
  let v0 : vec := (0, 1)%float in
  let dt := 1%float in
  let a : vec -> vec := fun x => ((- 1) ~* x)%V%float in
  let t1 := [0; 1]%nat in
  let t2 := [0; 1; 2; 3]%nat in
  exists ra va rb vb r1 v1 c1 r2 v2 c2,
    initialize_arrays r0 v0 t1 = Ok (ra, va)
    /\ initialize_arrays r0 v0 t2 = Ok (rb, vb)
    /\ run_integration method dt (pure_fn a) (mkStore ra va [])
       = (Ok tt, mkStore r1 v1 c1)
    /\ run_integration method dt (pure_fn a) (mkStore rb vb [])
       = (Ok tt, mkStore r2 v2 c2)
    /\ r1 = take (length t1) r2 /\ v1 = take (length t1) v2.
Proof.
  exact (run_integration_prefix "rk4" (1, 0)%float (0, 1)%float 1
           (fun x => ((- 1) ~* x)%V%float) [0; 1]%nat [0; 1; 2; 3]%nat
           (or_intror eq_refl)
           (conj (le_S _ _ (le_n 1)) (le_S _ _ (le_S _ _ (le_n 2))))).
Defined.
End Prefix.

Section Symmetry.
Local Open Scope float_scope.

Lemma binary_round_aux_opp s m e l :
  binary_round_aux prec emax (negb s) m e l
  = SFopp (binary_round_aux prec emax s m e l).
Proof.
  unfold binary_round_aux.
  destruct (shr_fexp prec emax m e l) as [mrs' e'].
  destruct (shr_fexp prec emax _ e' loc_Exact) as [mrs'' e''].
  destruct (shr_m mrs''); try reflexivity.
  destruct (Z.leb e'' (emax - prec)); reflexivity.
Qed.

Lemma xorb_negb_r a b : xorb a (negb b) = negb (xorb a b).
Proof. destruct a, b; reflexivity. Qed.

Lemma SFmul_opp_r x y :
  SFmul prec emax x (SFopp y) = SFopp (SFmul prec emax x y).
Proof.
  destruct x as [sx|sx| |sx mx ex], y as [sy|sy| |sy my ey]; cbn [SFmul SFopp];
    rewrite ?xorb_negb_r; try reflexivity.
  apply binary_round_aux_opp.
Qed.

Lemma mul_opp_r x y : (x * - y = - (x * y))%float.
Proof.
  apply Prim2SF_inj. rewrite opp_spec, !mul_spec, opp_spec.
  apply SFmul_opp_r.
Qed.

Lemma SFfma_opp x z : SFfma (SFopp x) (SFopp x) z = SFfma x x z.
Proof. destruct x as [[]|[]| |[] m e]; reflexivity. Qed.

Lemma fma_opp x z : fma (- x) (- x) z = fma x x z.
Proof. unfold fma. now rewrite opp_spec, SFfma_opp. Qed.

Lemma norm_1d_opp x y : Vec.norm_1d (- x, - y) = Vec.norm_1d (x, y).
Proof. unfold Vec.norm_1d, Vec.dot. cbn [fst snd]. now rewrite !fma_opp. Qed.

(** X8. The acceleration function never raises and is odd: at the
    mirrored position (-x, -y) it returns the opposite of the
    acceleration at (x, y), component by component, for every G and M
    and whatever the C library computes for norm**3 (a NaN being its
    own opposite). *)
Theorem acceleration_fn_odd (pow : float -> float -> float)
        (G M x y : float) :
  exists ax ay,
    create_acceleration_fn pow G M (x, y) = Ok (ax, ay)
    /\ create_acceleration_fn pow G M (- x, - y) = Ok (- ax, - ay).
Proof.
  unfold create_acceleration_fn, np_truediv. cbn [rbind].
  rewrite norm_1d_opp.
  eexists _, _. split; [reflexivity|].
  unfold Vec.mull. cbn [fst snd]. now rewrite !mul_opp_r.
Qed.
End Symmetry.

(** ** More on compute_aphelion *)

Section AphelionMore.
Local Open Scope nat_scope.

Lemma compute_aphelion_at (r v : list vec) (i0 c j : nat) (pos : vec) :
  np_argmax (map Vec.norm r) = Ok i0 ->
  cutoff_of (length r) = Ok c ->
  np_argmax (drop c (map Vec.norm r)) = Ok j ->
  r !! (if Nat.eqb i0 0 then j + c else i0) = Some pos ->
  compute_aphelion r v
  = match v !! (if Nat.eqb i0 0 then j + c else i0) with
    | Some vel => Ok (Vec.norm pos, vel, if Nat.eqb i0 0 then j + c else i0)
    | None => Raise IndexError
    end.
Proof.
  intros Hi0 Hc Hj Hpos. unfold compute_aphelion.
  rewrite Hi0. cbn [rbind].
  destruct (Nat.eqb i0 0).
  - rewrite Hc. cbn [rbind]. rewrite Hj. cbn [rbind]. unfold getitem.
    rewrite list_lookup_fmap, Hpos. cbn. destruct (v !! (j + c)); reflexivity.
  - cbn [rbind]. unfold getitem.
    rewrite list_lookup_fmap, Hpos. cbn. destruct (v !! i0); reflexivity.
Qed.

(** X9. For a trajectory r of 2 <= N < 2^48 rows, the index
    compute_aphelion returns is fixed by r alone and lies between 1
    and N-1, and the distance is the norm of that row of r. Of v the
    function reads that one row: it returns it as the velocity, and
    raises IndexError when v does not have it. *)
Theorem compute_aphelion_reads_one_row (r : list vec) :
  2 <= length r ->
  (Z.of_nat (length r) < 2 ^ 48)%Z ->
  exists idx pos,
    1 <= idx < length r
    /\ r !! idx = Some pos
    /\ forall v,
        compute_aphelion r v
        = match v !! idx with
          | Some vel => Ok (Vec.norm pos, vel, idx)
          | None => Raise IndexError
          end.
Proof.
  intros Hlen Hbig.
  destruct (aphelion_candidates r Hlen Hbig)
    as (i0 & j & Hi0 & Hc & Hj & Hcut & Hi0lt & Hjlt).
  set (c := Nat.max 1 (length r / 20)) in *.
  set (idx := if Nat.eqb i0 0 then j + c else i0).
  assert (Hidx : 1 <= idx < length r).
  { unfold idx. destruct (Nat.eqb_spec i0 0); lia. }
  destruct (lookup_lt_is_Some_2 r idx ltac:(lia)) as [pos Hpos].
  exists idx, pos. split; [assumption|]. split; [assumption|].
  intros v. now apply (compute_aphelion_at r v i0 c j).
Qed.

Lemma compute_aphelion_reads_one_row_witness :
  let r : list vec := [(30, 4); (1, 0); (0, 2); (6, 8); (1, 1)]%float in
  exists idx pos,
    (1 <= idx < length r)%nat
    /\ r !! idx = Some pos
    /\ forall v,
        compute_aphelion r v
        = match v !! idx with
          | Some vel => Ok (Vec.norm pos, vel, idx)
          | None => Raise IndexError
          end.
Proof.
  exact (compute_aphelion_reads_one_row
           [(30, 4); (1, 0); (0, 2); (6, 8); (1, 1)]%float
           (le_S _ _ (le_S _ _ (le_S _ _ (le_n 2)))) eq_refl).
Defined.

(** X10. When row k >= 1 of r is the first whose norm is a NaN,
    compute_aphelion returns index k, the NaN as the distance and row
    k of v: a NaN in the trajectory is taken for the aphelion. *)
Theorem compute_aphelion_first_nan (r v : list vec) (k : nat) (pos vel : vec) :
  1 <= k ->
  r !! k = Some pos -> v !! k = Some vel ->
  is_nan (Vec.norm pos) = true ->
  (forall i p, i < k -> r !! i = Some p -> is_nan (Vec.norm p) = false) ->
  compute_aphelion r v = Ok (Vec.norm pos, vel, k).
Proof.
  intros Hk Hpos Hvel Hnan Hbefore.
  assert (Hi0 : np_argmax (map Vec.norm r) = Ok k).
  { apply (np_argmax_first_nan _ k (Vec.norm pos)).
    - now rewrite list_lookup_fmap, Hpos.
    - assumption.
    - intros i y Hi Hy. rewrite list_lookup_fmap in Hy.
      destruct (r !! i) as [p|] eqn:Ep; [|discriminate].
      cbn in Hy. injection Hy as <-. now apply (Hbefore i p). }
  unfold compute_aphelion. rewrite Hi0. cbn [rbind].
  destruct (Nat.eqb_spec k 0) as [->|_]; [lia|].
  cbn [rbind]. unfold getitem.
  rewrite list_lookup_fmap, Hpos, Hvel. reflexivity.
Qed.

Lemma compute_aphelion_first_nan_witness :
  compute_aphelion [(1, 0); (nan, 0); (3, 0); (nan, 1)]%float
                   [(0, 0); (1, 0); (2, 0); (3, 0)]%float
  = Ok (Vec.norm (nan, 0)%float, (1, 0)%float, 1%nat).
Proof.
  apply (compute_aphelion_first_nan
           [(1, 0); (nan, 0); (3, 0); (nan, 1)]%float
           [(0, 0); (1, 0); (2, 0); (3, 0)]%float
           1 (nan, 0)%float (1, 0)%float (le_n 1) eq_refl eq_refl eq_refl).
  intros [|i] p Hi H; [|lia].
  injection H as <-. reflexivity.
Defined.

(** X11. On a trajectory without NaN norms (2 <= N < 2^48 rows, v as
    long as r), the distance d that compute_aphelion returns is at
    least every norm from the cutoff max(1, N // 20) on. If some row
    lies farther out than row 0, d is at least every norm of the
    trajectory and the index is the first row that reaches it. If no
    row lies farther out than row 0, the index is at or after the
    cutoff and d is at most the norm of row 0. *)
Theorem compute_aphelion_greatest (r v : list vec) (p0 : vec) :
  2 <= length r ->
  (Z.of_nat (length r) < 2 ^ 48)%Z ->
  length v = length r ->
  r !! 0 = Some p0 ->
  Forall (fun p => is_nan (Vec.norm p) = false) r ->
  let cutoff := Nat.max 1 (length r / 20) in
  exists d vel idx,
    compute_aphelion r v = Ok (d, vel, idx)
    /\ (forall k p, cutoff <= k -> r !! k = Some p ->
        PrimFloat.leb (Vec.norm p) d = true)
    /\ ((exists k p, r !! k = Some p
                     /\ PrimFloat.leb (Vec.norm p) (Vec.norm p0) = false) ->
        (forall k p, r !! k = Some p -> PrimFloat.leb (Vec.norm p) d = true)
        /\ (forall k p, k < idx -> r !! k = Some p ->
            PrimFloat.leb d (Vec.norm p) = false))
    /\ ((forall k p, r !! k = Some p ->
         PrimFloat.leb (Vec.norm p) (Vec.norm p0) = true) ->
        cutoff <= idx /\ PrimFloat.leb d (Vec.norm p0) = true).
Proof.
  intros Hlen Hbig Hv Hp0 Hnan cutoff.
  destruct (aphelion_candidates r Hlen Hbig)
    as (i0 & j & Hi0 & Hc & Hj & Hcut & Hi0lt & Hjlt).
  fold cutoff in Hc, Hj, Hcut, Hjlt.
  set (distances := map Vec.norm r) in *.
  assert (Hnan' : Forall (fun d => is_nan d = false) distances).
  { unfold distances. rewrite Forall_fmap. exact Hnan. }
  pose proof (np_argmax_first_max distances i0 Hnan' Hi0) as (m0 & Hm0 & Hge0 & Hlt0).
  pose proof (np_argmax_first_max (drop cutoff distances) j
                (Forall_drop _ _ _ Hnan') Hj) as (m1 & Hm1 & Hge1 & Hlt1).
  set (idx := if Nat.eqb i0 0 then j + cutoff else i0).
  assert (Hidx : idx < length r) by (unfold idx; destruct (Nat.eqb i0 0); lia).
  destruct (lookup_lt_is_Some_2 r idx Hidx) as [pos Hpos].
  destruct (lookup_lt_is_Some_2 v idx ltac:(lia)) as [vel Hvel].
  pose proof (compute_aphelion_eval r v i0 cutoff j pos vel Hi0 Hc Hj Hpos Hvel) as Hrun.
  fold idx in Hrun.
  assert (Hd0 : distances !! 0 = Some (Vec.norm p0)).
  { unfold distances. now rewrite list_lookup_fmap, Hp0. }
  assert (Hlook : forall k p, r !! k = Some p -> distances !! k = Some (Vec.norm p)).
  { intros k p Hk. unfold distances. now rewrite list_lookup_fmap, Hk. }
  assert (Htail : forall k p, cutoff <= k -> r !! k = Some p ->
                              PrimFloat.leb (Vec.norm p) m1 = true).
  { intros k p Hk Hr. apply (Hge1 (k - cutoff)).
    rewrite lookup_drop. replace (cutoff + (k - cutoff)) with k by lia.
    now apply Hlook. }
  rewrite lookup_drop in Hm1.
  exists (Vec.norm pos), vel, idx. split; [exact Hrun|].
  destruct (Nat.eqb_spec i0 0) as [Hz|Hnz].
  - (* the first sample is a greatest one: the search is redone *)
    subst i0. assert (m0 = Vec.norm p0) as -> by congruence.
    assert (Hpos1 : Vec.norm pos = m1).
    { apply Hlook in Hpos. unfold idx in Hpos.
      replace (j + cutoff) with (cutoff + j) in Hpos by lia. congruence. }
    rewrite Hpos1. split; [exact Htail|]. split.
    + intros (k & p & Hk & Hgt). apply Hlook in Hk.
      rewrite (Hge0 _ _ Hk) in Hgt. discriminate.
    + intros _. split; [unfold idx; lia|].
      apply (Hge0 (cutoff + j)). exact Hm1.
  - (* the unconstrained argmax stands *)
    assert (Hpos0 : Vec.norm pos = m0).
    { apply Hlook in Hpos. unfold idx in Hpos. congruence. }
    rewrite Hpos0. split.
    { intros k p _ Hr. apply (Hge0 k). now apply Hlook. }
    split.
    + intros _. split.
      * intros k p Hr. apply (Hge0 k). now apply Hlook.
      * intros k p Hk Hr. apply (Hlt0 k); [exact Hk | now apply Hlook].
    + intros Hall. exfalso.
      assert (PrimFloat.leb m0 (Vec.norm p0) = false) as Hf.
      { apply (Hlt0 0); [lia | exact Hd0]. }
      destruct (lookup_lt_is_Some_2 r i0 Hi0lt) as [pi Hpi].
      pose proof (Hall _ _ Hpi) as Ht. apply Hlook in Hpi.
      assert (Heq : m0 = Vec.norm pi) by congruence.
      rewrite Heq, Ht in Hf. discriminate.
Qed.

Lemma compute_aphelion_greatest_witness :
  let r : list vec := [(30, 4); (1, 0); (0, 2); (6, 8); (1, 1)]%float in
  let v : list vec := [(0, 0); (1, 0); (2, 0); (3, 0); (4, 0)]%float in
  let p0 : vec := (30, 4)%float in
  let cutoff := Nat.max 1 (length r / 20) in
  exists d vel idx,
    compute_aphelion r v = Ok (d, vel, idx)
    /\ (forall k p, (cutoff <= k)%nat -> r !! k = Some p ->
        PrimFloat.leb (Vec.norm p) d = true)
    /\ ((exists k p, r !! k = Some p
                     /\ PrimFloat.leb (Vec.norm p) (Vec.norm p0) = false) ->
        (forall k p, r !! k = Some p -> PrimFloat.leb (Vec.norm p) d = true)
        /\ (forall k p, (k < idx)%nat -> r !! k = Some p ->
            PrimFloat.leb d (Vec.norm p) = false))
    /\ ((forall k p, r !! k = Some p ->
         PrimFloat.leb (Vec.norm p) (Vec.norm p0) = true) ->
        (cutoff <= idx)%nat /\ PrimFloat.leb d (Vec.norm p0) = true).
Proof.
  apply (compute_aphelion_greatest
           [(30, 4); (1, 0); (0, 2); (6, 8); (1, 1)]%float
           [(0, 0); (1, 0); (2, 0); (3, 0); (4, 0)]%float
           (30, 4)%float
           (le_S _ _ (le_S _ _ (le_S _ _ (le_n 2)))) eq_refl eq_refl eq_refl).
  repeat constructor.
Defined.
End AphelionMore.

(** ** More on get_time_settings *)

Section TimeGridMore.
Local Open Scope Z_scope.

(** X14. The default of 3600 s applies only when
    'numerical_method_settings' is absent: when it is present, a
    dictionary, and has no 'time_step', get_time_settings raises
    KeyError('time_step'), whatever the planet. *)
Theorem get_time_settings_missing_step (cfg planet_cfg settings : gmap string json) :
  cfg !! "numerical_method_settings" = Some (JObj settings) ->
  settings !! "time_step" = None ->
  get_time_settings cfg planet_cfg = Raise (KeyError "time_step").
Proof.
  intros Hs Ht. unfold get_time_settings, time_step_of.
  rewrite Hs. cbn [subscript]. rewrite Ht. reflexivity.
Qed.

Lemma get_time_settings_missing_step_witness :
  get_time_settings cfg_no_step earth_entry = Raise (KeyError "time_step").
Proof.
  exact (get_time_settings_missing_step cfg_no_step earth_entry ∅
           eq_refl eq_refl).
Defined.

(** X12. For an integer time step and an integer number of days with 0
    < step < 2^52 and 0 < t_max = days * 24 * 3600 < 2^52,
    get_time_settings returns the step unchanged and the grid of
    integers t[i] = i * step; every point lies before t_max, and the
    grid stops within one step of it: t_max <= len(t) * step. *)
Theorem time_grid_values (cfg planet_cfg : gmap string json) (days step : Z) :
  time_step_of cfg = Ok (JNum (PyInt step)) ->
  sim_days_of cfg planet_cfg = JNum (PyInt days) ->
  0 < step < 2 ^ 52 ->
  0 < days * 24 * 3600 < 2 ^ 52 ->
  let total := days * 24 * 3600 in
  exists t,
    get_time_settings cfg planet_cfg = Ok (JNum (PyInt step), t)
    /\ (forall i, (i < length t)%nat ->
        t !! i = Some (PyInt (Z.of_nat i * step))
        /\ Z.of_nat i * step < total)
    /\ total <= Z.of_nat (length t) * step.
Proof.
  intros Hstep Hdays Hs Ht total.
  pose proof (Zceil_div_bounds total step ltac:(lia)) as [Hklo Hkhi].
  assert (HN : 1 <= Zceil_div total step) by nia.
  set (N := Z.to_nat (Zceil_div total step)).
  exists (map (fun i => PyInt (Z.of_nat i * step)) (seq 0 N)).
  split.
  { unfold get_time_settings. rewrite Hstep, Hdays.
    cbn [rbind as_number arange_step py_mul]. fold total.
    rewrite np_arange_values by assumption. reflexivity. }
  rewrite length_map, length_seq.
  assert (HNz : Z.of_nat N = Zceil_div total step) by (unfold N; lia).
  split.
  - intros i Hi. split.
    + rewrite list_lookup_fmap, lookup_seq_lt by assumption. reflexivity.
    + nia.
  - rewrite HNz. lia.
Qed.

Lemma time_grid_values_witness :
  let total := (1 * 24 * 3600)%Z in
  exists t,
    get_time_settings cfg_coarse no_planet_cfg = Ok (JNum (PyInt 7000), t)
    /\ (forall i, (i < length t)%nat ->
        t !! i = Some (PyInt (Z.of_nat i * 7000))
        /\ (Z.of_nat i * 7000 < total)%Z)
    /\ (total <= Z.of_nat (length t) * 7000)%Z.
Proof.
  exact (time_grid_values cfg_coarse no_planet_cfg 1 7000
           eq_refl eq_refl (conj eq_refl eq_refl) (conj eq_refl eq_refl)).
Defined.

(** X13. Without the key 'numerical_method_settings' the time step is
    3600 s, and a planet whose 'orbital_period_days' is the integer
    days > 0 gets one sample per hour: 24 * days points. *)
Theorem default_step_samples (cfg planet_cfg : gmap string json) (days : Z) :
  cfg !! "numerical_method_settings" = None ->
  planet_cfg !! "orbital_period_days" = Some (JNum (PyInt days)) ->
  0 < days * 24 * 3600 < 2 ^ 52 ->
  exists t,
    get_time_settings cfg planet_cfg = Ok (JNum (PyInt 3600), t)
    /\ length t = Z.to_nat (24 * days).
Proof.
  intros Hnone Hp Hd.
  assert (Hstep : time_step_of cfg = Ok (JNum (PyInt 3600)))
    by (unfold time_step_of; now rewrite Hnone).
  assert (Hdays : sim_days_of cfg planet_cfg = JNum (PyInt days))
    by (unfold sim_days_of; now rewrite Hp).
  destruct (np_arange_int (days * 24 * 3600) 3600 Hd ltac:(cbn; lia))
    as (t & Harange & Hlen).
  exists t. split.
  - unfold get_time_settings. rewrite Hstep, Hdays.
    cbn [rbind as_number arange_step py_mul]. rewrite Harange. reflexivity.
  - rewrite Hlen. f_equal. apply Zceil_div_unique; lia.
Qed.

Lemma default_step_samples_witness :
  exists t,
    get_time_settings no_planet_cfg earth_entry = Ok (JNum (PyInt 3600), t)
    /\ length t = Z.to_nat (24 * 365).
Proof.
  exact (default_step_samples no_planet_cfg earth_entry 365
           eq_refl eq_refl (conj eq_refl eq_refl)).
Defined.

(** X15. An integer time step of 0 makes get_time_settings raise
    ZeroDivisionError, from the quotient np.arange takes to find the
    length of the grid (for an integer number of days with 0 < days *
    24 * 3600 < 2^52). *)
Theorem zero_time_step_raises (cfg planet_cfg : gmap string json) (days : Z) :
  time_step_of cfg = Ok (JNum (PyInt 0)) ->
  sim_days_of cfg planet_cfg = JNum (PyInt days) ->
  0 < days * 24 * 3600 < 2 ^ 52 ->
  get_time_settings cfg planet_cfg = Raise ZeroDivisionError.
Proof.
  intros Hstep Hdays Hd.
  unfold get_time_settings. rewrite Hstep, Hdays.
  cbn [rbind as_number arange_step py_mul].
  unfold np_arange, arange_len, calc_length.
  cbn [py_sub rbind]. rewrite Z.sub_0_r.
  unfold py_truediv.
  destruct (to_float_int _ Hd) as [-> _]. reflexivity.
Qed.

Lemma zero_time_step_raises_witness :
  get_time_settings cfg_zero_step earth_entry = Raise ZeroDivisionError.
Proof.
  exact (zero_time_step_raises cfg_zero_step earth_entry 365
           eq_refl eq_refl (conj eq_refl eq_refl)).
Defined.

(** X16. A period of 0 days gives an empty time grid, which
    get_time_settings returns without complaint; initialize_arrays on
    an empty grid raises IndexError, the arrays having no row 0 to
    take the initial state. *)
Theorem zero_days_empty_grid (cfg planet_cfg : gmap string json) (step : Z)
        (r0 v0 : vec) :
  time_step_of cfg = Ok (JNum (PyInt step)) ->
  sim_days_of cfg planet_cfg = JNum (PyInt 0) ->
  0 < step < 2 ^ 52 ->
  get_time_settings cfg planet_cfg = Ok (JNum (PyInt step), [])
  /\ initialize_arrays r0 v0 (@nil pynum) = Raise IndexError.
Proof.
  intros Hstep Hdays Hs. split; [|reflexivity].
  unfold get_time_settings. rewrite Hstep, Hdays.
  cbn [rbind as_number arange_step py_mul Z.mul].
  unfold np_arange, arange_len, calc_length.
  cbn [py_sub rbind Z.sub Z.opp Z.add].
  unfold py_truediv.
  destruct (to_float_int step Hs) as [Hf Hnz].
  change (to_float (PyInt (0 * 24 * 3600 - 0))) with (Ok 0%float).
  rewrite Hf. cbn [rbind]. rewrite Hnz. cbn [rbind].
  change (py_nonzero (PyInt (0 * 24 * 3600 - 0))) with false.
  rewrite andb_false_r.
  destruct (bits_of_bounded step 52 ltac:(lia)) as (d & Hd & Hbits).
  destruct (Z2F_normal step d Hd Hbits) as (B & _ & HSF).
  rewrite div_spec, HSF. change (Prim2SF 0) with (S754_zero false).
  reflexivity.
Qed.

Lemma zero_days_empty_grid_witness :
  get_time_settings cfg_coarse zero_period_entry = Ok (JNum (PyInt 7000), [])
  /\ initialize_arrays (1, 0)%float (0, 1)%float (@nil pynum)
     = Raise IndexError.
Proof.
  exact (zero_days_empty_grid cfg_coarse zero_period_entry 7000
           (1, 0)%float (0, 1)%float
           eq_refl eq_refl (conj eq_refl eq_refl)).
Defined.
End TimeGridMore.

(** ** get_planet_colors and the keys of the configuration *)

Section ColorFacts.

(** X17. Whenever get_planet_colors returns, the result gives for
    every key the colour of the planet where the planet has one, and
    the global colour otherwise; its keys are those of the two
    dictionaries together. An unknown planet, a planet without
    'colors' and a configuration without 'colors' count as empty
    dictionaries. *)
Theorem get_planet_colors_lookup (cfg : gmap string json) (planet_name : string)
        (m : gmap string json) :
  get_planet_colors cfg planet_name = Done m ->
  exists planets entry g p,
    cfg !! "planets" = Some (JObj planets)
    /\ default (JObj ∅) (planets !! planet_name) = JObj entry
    /\ default (JObj ∅) (entry !! "colors") = JObj p
    /\ default (JObj ∅) (cfg !! "colors") = JObj g
    /\ (forall k, m !! k = match p !! k with
                           | Some c => Some c
                           | None => g !! k
                           end)
    /\ dom m = dom p ∪ dom g.
Proof.
  unfold get_planet_colors.
  destruct (cfg !! "planets") as [planets|]; [|discriminate].
  destruct planets as [| | | | |planets]; try discriminate. cbn [get_or_empty abind].
  destruct (default (JObj ∅) (planets !! planet_name)) as [| | | | |entry] eqn:He;
    try discriminate.
  cbn [get_or_empty abind].
  destruct (default (JObj ∅) (entry !! "colors")) as [| | | | |p] eqn:Hp;
    destruct (default (JObj ∅) (cfg !! "colors")) as [| | | | |g] eqn:Hg;
    try discriminate.
  cbn [merge_dicts]. intros [= <-].
  exists planets, entry, g, p. repeat split; try assumption.
  - intros k. rewrite lookup_union. destruct (p !! k), (g !! k); reflexivity.
  - apply dom_union_L.
Qed.

Lemma get_planet_colors_lookup_witness :
  let m : gmap string json := earth_colors ∪ shared_colors in
  exists planets entry g p,
    cfg_solar !! "planets" = Some (JObj planets)
    /\ default (JObj ∅) (planets !! "earth") = JObj entry
    /\ default (JObj ∅) (entry !! "colors") = JObj p
    /\ default (JObj ∅) (cfg_solar !! "colors") = JObj g
    /\ (forall k, m !! k = match p !! k with
                           | Some c => Some c
                           | None => g !! k
                           end)
    /\ dom m = dom p ∪ dom g.
Proof.
  exact (get_planet_colors_lookup cfg_solar "earth"
           (earth_colors ∪ shared_colors) eq_refl).
Defined.

(** X18. A planet name that cfg['planets'] does not have is no error
    for get_planet_colors, which returns the global colours alone, but
    makes get_initial_conditions raise KeyError(planet_name). *)
Theorem unknown_planet_colors_and_conditions (cfg planets g : gmap string json)
        (planet_name : string) :
  cfg !! "planets" = Some (JObj planets) ->
  planets !! planet_name = None ->
  cfg !! "colors" = Some (JObj g) ->
  get_planet_colors cfg planet_name = Done g
  /\ get_initial_conditions cfg planet_name = Raise (KeyError planet_name).
Proof.
  intros Hp Hn Hg. split.
  - unfold get_planet_colors. rewrite Hp, Hg. cbn [get_or_empty abind].
    rewrite Hn. cbn [default get_or_empty abind].
    rewrite lookup_empty. cbn [default merge_dicts].
    unfold id. cbn [merge_dicts]. now rewrite (left_id_L ∅ (∪)).
  - unfold get_initial_conditions. cbn [subscript]. rewrite Hp.
    cbn [rbind subscript]. now rewrite Hn.
Qed.

Lemma unknown_planet_colors_and_conditions_witness :
  get_planet_colors cfg_solar "mars" = Done shared_colors
  /\ get_initial_conditions cfg_solar "mars" = Raise (KeyError "mars").
Proof.
  exact (unknown_planet_colors_and_conditions cfg_solar solar_planets
           shared_colors "mars" eq_refl eq_refl eq_refl).
Defined.

(** X19. For a planet entry that is a dictionary: without
    'position_at_perihelion', get_initial_conditions raises KeyError
    for that key; with a position of whatever type but without
    'velocity_at_perihelion', it raises
    KeyError('velocity_at_perihelion'). Both keys are read before any
    arithmetic is done. *)
Theorem initial_conditions_missing_field (cfg planets entry : gmap string json)
        (planet_name : string) :
  cfg !! "planets" = Some (JObj planets) ->
  planets !! planet_name = Some (JObj entry) ->
  (entry !! "position_at_perihelion" = None ->
   get_initial_conditions cfg planet_name
   = Raise (KeyError "position_at_perihelion"))
  /\ (forall pos,
        entry !! "position_at_perihelion" = Some pos ->
        entry !! "velocity_at_perihelion" = None ->
        get_initial_conditions cfg planet_name
        = Raise (KeyError "velocity_at_perihelion")).
Proof.
  intros Hp He. unfold get_initial_conditions. cbn [subscript].
  rewrite Hp. cbn [rbind subscript]. rewrite He. cbn [rbind subscript].
  split.
  - intros ->. reflexivity.
  - intros pos -> ->. reflexivity.
Qed.

Lemma initial_conditions_missing_field_witness :
  (position_only_entry !! "position_at_perihelion" = None ->
   get_initial_conditions cfg_position_only "earth"
   = Raise (KeyError "position_at_perihelion"))
  /\ (forall pos,
        position_only_entry !! "position_at_perihelion" = Some pos ->
        position_only_entry !! "velocity_at_perihelion" = None ->
        get_initial_conditions cfg_position_only "earth"
        = Raise (KeyError "velocity_at_perihelion")).
Proof.
  exact (initial_conditions_missing_field cfg_position_only
           (<["earth" := JObj position_only_entry]> ∅) position_only_entry
           "earth" eq_refl eq_refl).
Defined.
End ColorFacts.

(** ** The orientation of the initial conditions *)

Section Signs.
Local Open Scope Z_scope.

Lemma shr_fexp_nonneg m e l :
  0 <= m -> 0 <= shr_m (fst (shr_fexp prec emax m e l)).
Proof.
  intros Hm. unfold shr_fexp, shr.
  destruct (fexp prec emax (Zdigits2 m + e) - e) as [|k|k]; cbn [fst];
    rewrite ?iter_shr_1_m, shr_record_of_loc_m; rewrite ?shr_record_of_loc_m;
    try lia.
  apply Z.div_pos; [lia | apply Z.pow_pos_nonneg; lia].
Qed.

Lemma binary_round_aux_sign s (M : positive) E l :
  has_sign s (binary_round_aux prec emax s (Zpos M) E l).
Proof.
  unfold binary_round_aux.
  pose proof (shr_fexp_nonneg (Zpos M) E l ltac:(lia)) as H1.
  destruct (shr_fexp prec emax (Zpos M) E l) as [mrs' e']. cbn [fst] in H1.
  pose proof (round_nearest_even_bracket (shr_m mrs') (loc_of_shr_record mrs')) as Hb.
  set (m1 := round_nearest_even (shr_m mrs') (loc_of_shr_record mrs')) in *.
  pose proof (shr_fexp_nonneg m1 e' loc_Exact ltac:(lia)) as H2.
  destruct (shr_fexp prec emax m1 e' loc_Exact) as [mrs'' e'']. cbn [fst] in H2.
  destruct (shr_m mrs''); try lia; cbn; [reflexivity|].
  destruct (Z.leb e'' (emax - prec)); reflexivity.
Qed.

Lemma SFmul_sign sa sb a mb eb :
  has_sign sa a -> a <> S754_zero sa ->
  has_sign (xorb sa sb) (SFmul prec emax a (S754_finite sb mb eb)).
Proof.
  destruct a as [s|s| |s ma ea]; cbn [has_sign SFmul]; try tauto.
  - intros -> H. congruence.
  - intros -> _. reflexivity.
  - intros -> _. apply binary_round_aux_sign.
Qed.

Lemma leb_zero_sign_false x :
  has_sign false (Prim2SF x) -> PrimFloat.leb 0 x = true.
Proof.
  rewrite leb_spec. change (Prim2SF 0) with (S754_zero false).
  destruct (Prim2SF x) as [s|s| |s m e]; cbn [has_sign]; try tauto;
    intros ->; reflexivity.
Qed.

Lemma leb_sign_true_zero x :
  has_sign true (Prim2SF x) -> PrimFloat.leb x 0 = true.
Proof.
  rewrite leb_spec. change (Prim2SF 0) with (S754_zero false).
  destruct (Prim2SF x) as [s|s| |s m e]; cbn [has_sign]; try tauto;
    intros ->; reflexivity.
Qed.

Lemma Z2F_normal_neg (N d : Z) :
  1 <= d <= 52 -> 2 ^ (d - 1) <= N < 2 ^ d ->
  exists A : positive,
    Zpos A = N * 2 ^ (53 - d)
    /\ Prim2SF (Z2F (- N)) = S754_finite true A (d - 53).
Proof.
  intros Hd HN.
  assert (0 < 2 ^ (d - 1)) by (apply Z.pow_pos_nonneg; lia).
  destruct N as [|p|p]; try lia.
  assert (Hdig : Zpos (digits2_pos p) = d) by (apply (Zdigits2_unique p d); lia).
  unfold Z2F. change (- Z.pos p) with (Z.neg p). unfold binary_normalize, binary_round.
  rewrite Hdig, fexp_normal by lia.
  unfold shl_align.
  destruct (d + 0 - 53 - 0) as [|k|k] eqn:Ek; try lia.
  exists (Pos.iter xO p k).
  assert (Hval : Zpos (Pos.iter xO p k) = Zpos p * 2 ^ (53 - d)).
  { rewrite iter_xO_value. f_equal. f_equal. lia. }
  split; [exact Hval|].
  assert (Hpow : 2 ^ (d - 1) * 2 ^ (53 - d) = 2 ^ 52 /\ 2 ^ d * 2 ^ (53 - d) = 2 ^ 53).
  { rewrite <- !Z.pow_add_r by lia. split; f_equal; lia. }
  assert (0 < 2 ^ (53 - d)) by (apply Z.pow_pos_nonneg; lia).
  assert (Hd53 : Zdigits2 (Zpos (Pos.iter xO p k)) = 53).
  { apply Zdigits2_unique. rewrite Hval. change (53 - 1) with 52. nia. }
  rewrite binary_round_aux_exact by (try exact Hd53; lia).
  rewrite Prim2SF_SF2Prim; [f_equal; lia|].
  unfold SpecFloat.valid_binary, bounded, canonical_mantissa.
  cbn [Zdigits2] in Hd53. rewrite Hd53, fexp_normal by lia.
  apply andb_true_intro. split; [apply Z.eqb_eq | apply Z.leb_le; unfold emax, prec]; lia.
Qed.

(** The float a positive number converts to, and the one its negation
    converts to. *)
Lemma positive_number_float n :
  positive_number n ->
  exists x, to_float n = Ok x
            /\ has_sign false (Prim2SF x) /\ Prim2SF x <> S754_zero false.
Proof.
  destruct n as [z|f]; cbn [positive_number to_float].
  - intros Hz. destruct (to_float_int z Hz) as [Hf _].
    cbn [to_float] in Hf. exists (Z2F z). split; [exact Hf|].
    destruct (bits_of_bounded z 52 ltac:(lia)) as (d & Hd & Hbits).
    destruct (Z2F_normal z d Hd Hbits) as (A & _ & ->).
    split; [reflexivity | discriminate].
  - intros Hf. exists f. split; [reflexivity|].
    rewrite ltb_spec in Hf. change (Prim2SF 0) with (S754_zero false) in Hf.
    destruct (Prim2SF f) as [[]|[]| |[] m e]; try discriminate;
      (split; [reflexivity | discriminate]).
Qed.

Lemma negated_number_float n :
  positive_number n ->
  exists x, to_float (py_neg n) = Ok x
            /\ has_sign true (Prim2SF x) /\ Prim2SF x <> S754_zero true.
Proof.
  destruct n as [z|f]; cbn [positive_number to_float py_neg].
  - intros Hz.
    destruct (bits_of_bounded z 52 ltac:(lia)) as (d & Hd & Hbits).
    destruct (Z2F_normal_neg z d Hd Hbits) as (A & _ & HSF).
    exists (Z2F (- z)). rewrite is_infinity_spec, HSF.
    split; [reflexivity|]. split; [reflexivity | discriminate].
  - intros Hf. exists (- f)%float. split; [reflexivity|].
    rewrite ltb_spec in Hf. change (Prim2SF 0) with (S754_zero false) in Hf.
    rewrite opp_spec.
    destruct (Prim2SF f) as [[]|[]| |[] m e]; try discriminate;
      (split; [reflexivity | discriminate]).
Qed.

Lemma py_mul_float n c x :
  to_float n = Ok x ->
  exists y, py_mul n (PyFloat c) = Ok (PyFloat y) /\ y = (x * c)%float.
Proof.
  intros Hx. exists (x * c)%float. split; [|reflexivity].
  destruct n; cbn [py_mul]; rewrite Hx; reflexivity.
Qed.

(** X20. For a positive distance and a positive speed (positive
    floats, or positive integers below 2^52), get_initial_conditions
    returns r0 = (x, 0.0) and v0 = (0.0, y) with x >= 0 and y <= 0:
    the planet starts on the positive x half-axis and moves towards
    negative y. *)
Theorem initial_conditions_orientation (cfg planets entry : gmap string json)
        (planet_name : string) (p w : pynum) :
  cfg !! "planets" = Some (JObj planets) ->
  planets !! planet_name = Some (JObj entry) ->
  entry !! "position_at_perihelion" = Some (JNum p) ->
  entry !! "velocity_at_perihelion" = Some (JNum w) ->
  positive_number p -> positive_number w ->
  exists x y,
    get_initial_conditions cfg planet_name = Ok ((x, 0%float), (0%float, y))
    /\ PrimFloat.leb 0 x = true /\ PrimFloat.leb y 0 = true.
Proof.
  intros Hp He Hpos Hvel Hpp Hpw.
  destruct (positive_number_float p Hpp) as (xp & Hxp & Hsp & Hnzp).
  destruct (negated_number_float w Hpw) as (xw & Hxw & Hsw & Hnzw).
  destruct (py_mul_float p 1e9 xp Hxp) as (x & Hx & ->).
  destruct (py_mul_float (py_neg w) 1e3 xw Hxw) as (y & Hy & ->).
  exists (xp * 1e9)%float, (xw * 1e3)%float. split.
  - unfold get_initial_conditions. cbn [subscript]. rewrite Hp.
    cbn [rbind subscript]. rewrite He. cbn [rbind subscript].
    rewrite Hpos. cbn [rbind]. rewrite Hvel. cbn [rbind as_number].
    rewrite Hx. cbn [rbind to_float]. rewrite Hy. reflexivity.
  - split.
    + apply leb_zero_sign_false. rewrite mul_spec.
      change (Prim2SF 1e9) with (S754_finite false 8388608000000000 (-23)).
      apply (SFmul_sign false false); assumption.
    + apply leb_sign_true_zero. rewrite mul_spec.
      change (Prim2SF 1e3) with (S754_finite false 8796093022208000 (-43)).
      apply (SFmul_sign true false); assumption.
Qed.

Lemma initial_conditions_orientation_witness :
  exists x y,
    get_initial_conditions cfg_solar "earth"
    = Ok ((x, 0%float), (0%float, y))
    /\ PrimFloat.leb 0 x = true /\ PrimFloat.leb y 0 = true.
Proof.
  exact (initial_conditions_orientation cfg_solar solar_planets earth_entry
           "earth" _ _
           eq_refl eq_refl eq_refl eq_refl eq_refl (conj eq_refl eq_refl)).
Defined.
End Signs.

(** ** The norm of a row, fused *)

Section FusedNorm.
Local Open Scope Z_scope.

Lemma shr_fexp_value m e l :
  0 <= m ->
  let n := Z.max 0 (fexp prec emax (Zdigits2 m + e) - e) in
  shr_m (fst (shr_fexp prec emax m e l)) = m / 2 ^ n
  /\ snd (shr_fexp prec emax m e l) = e + n.
Proof.
  intros Hm. unfold shr_fexp, shr.
  destruct (fexp prec emax (Zdigits2 m + e) - e) as [|k|k]; cbn [fst snd].
  - rewrite shr_record_of_loc_m. cbn. rewrite Z.div_1_r. lia.
  - rewrite iter_shr_1_m, shr_record_of_loc_m
      by (rewrite shr_record_of_loc_m; exact Hm).
    rewrite Z.max_r by lia. split; reflexivity.
  - rewrite shr_record_of_loc_m. cbn. rewrite Z.div_1_r. lia.
Qed.

Lemma shifted_mantissa_pos (p : positive) n :
  0 <= n < Zdigits2 (Zpos p) -> 1 <= Zpos p / 2 ^ n.
Proof.
  intros Hn. pose proof (Zdigits2_bounds p) as [Hlo _].
  apply Z.div_le_lower_bound; [apply Z.pow_pos_nonneg; lia|].
  rewrite Z.mul_1_r. etransitivity; [|exact Hlo].
  apply Z.pow_le_mono_r; lia.
Qed.

(** A positive mantissa whose exponent is not below the range of the
    format by more than its own length is not rounded to zero. *)
Lemma binary_round_aux_nonzero s (M : positive) E l :
  SpecFloat.emin prec emax - E < Zdigits2 (Zpos M) ->
  match binary_round_aux prec emax s (Zpos M) E l with
  | S754_finite _ _ _ | S754_infinity _ => True
  | _ => False
  end.
Proof.
  intros HE. unfold binary_round_aux.
  destruct (shr_fexp_value (Zpos M) E l ltac:(lia)) as [Hm0 He0].
  destruct (shr_fexp prec emax (Zpos M) E l) as [mrs' e'].
  cbn [fst snd] in Hm0, He0.
  pose proof (Zdigits2_bounds M) as HdM.
  assert (Hd : 1 <= Zdigits2 (Zpos M)) by (cbn; lia).
  assert (Hn : 0 <= Z.max 0 (fexp prec emax (Zdigits2 (Zpos M) + E) - E)
               < Zdigits2 (Zpos M)).
  { unfold fexp, prec in *. lia. }
  pose proof (shifted_mantissa_pos M _ Hn) as Hm0pos.
  rewrite <- Hm0 in Hm0pos.
  assert (He' : SpecFloat.emin prec emax <= e').
  { rewrite He0. unfold fexp. lia. }
  pose proof (round_nearest_even_bracket (shr_m mrs') (loc_of_shr_record mrs')) as Hb.
  remember (round_nearest_even (shr_m mrs') (loc_of_shr_record mrs')) as m1 eqn:Em1.
  assert (Hm1 : 1 <= m1) by lia.
  destruct m1 as [|p1|p1]; try lia.
  destruct (shr_fexp_value (Zpos p1) e' loc_Exact ltac:(lia)) as [Hm2 _].
  destruct (shr_fexp prec emax (Zpos p1) e' loc_Exact) as [mrs'' e''].
  cbn [fst] in Hm2.
  assert (Hd1 : 1 <= Zdigits2 (Zpos p1)) by (cbn; lia).
  assert (Hn2 : 0 <= Z.max 0 (fexp prec emax (Zdigits2 (Zpos p1) + e') - e')
                < Zdigits2 (Zpos p1)).
  { unfold fexp, prec in *. lia. }
  pose proof (shifted_mantissa_pos p1 _ Hn2) as Hm2pos.
  rewrite <- Hm2 in Hm2pos.
  destruct (shr_m mrs'') as [|p2|p2]; try lia.
  destruct (Z.leb e'' (emax - prec)); exact I.
Qed.
Lemma valid_exponent x s m e :
  Prim2SF x = S754_finite s m e -> SpecFloat.emin prec emax <= e.
Proof.
  intros Hx. pose proof (Prim2SF_valid x) as Hv. rewrite Hx in Hv.
  unfold SpecFloat.valid_binary, bounded, canonical_mantissa in Hv.
  apply andb_prop in Hv as [Hc _]. apply Z.eqb_eq in Hc.
  rewrite <- Hc. unfold fexp. lia.
Qed.

Lemma SFsqrt_positive m e :
  SpecFloat.emin prec emax <= e ->
  match SFsqrt prec emax (S754_finite false m e) with
  | S754_finite _ _ _ | S754_infinity _ => True
  | _ => False
  end.
Proof.
  intros He. unfold SFsqrt, SFsqrt_core_binary.
  set (e' := Z.min (fexp prec emax (Z.div2 (Zdigits2 (Zpos m) + e + 1)))
                   (Z.div2 e)).
  assert (He' : SpecFloat.emin prec emax <= e' /\ 0 <= e - 2 * e').
  { unfold e', fexp. rewrite !Z.div2_div.
    pose proof (Z.div_mod e 2 ltac:(lia)).
    pose proof (Z.mod_pos_bound e 2 ltac:(lia)).
    unfold SpecFloat.emin, emax, prec in *. lia. }
  destruct He' as [Hlo Hs].
  set (m' := match e - 2 * e' with
             | 0 => Zpos m
             | Zpos _ => Z.shiftl (Zpos m) (e - 2 * e')
             | Zneg _ => 0
             end).
  assert (Hm' : 1 <= m').
  { unfold m'. destruct (e - 2 * e') as [|k|k] eqn:Ek; try lia.
    rewrite Z.shiftl_mul_pow2 by lia.
    assert (0 < 2 ^ Zpos k) by (apply Z.pow_pos_nonneg; lia). nia. }
  pose proof (Z.sqrtrem_spec m' ltac:(lia)) as Hq.
  destruct (Z.sqrtrem m') as [q r].
  assert (Hq1 : 1 <= q) by nia.
  destruct q as [|q|q]; try lia.
  apply binary_round_aux_nonzero.
  assert (1 <= Zdigits2 (Zpos q)) by (cbn; lia). lia.
Qed.

Lemma SFadd_positive m1 e1 m2 e2 :
  SpecFloat.emin prec emax <= e1 -> SpecFloat.emin prec emax <= e2 ->
  match SFadd prec emax (S754_finite false m1 e1) (S754_finite false m2 e2) with
  | S754_finite _ _ _ | S754_infinity _ => True
  | _ => False
  end.
Proof.
  intros H1 H2. unfold SFadd. cbn [cond_Zopp].
  set (ez := Z.min e1 e2).
  assert (Hez : SpecFloat.emin prec emax <= ez) by (unfold ez; lia).
  generalize (fst (shl_align m1 e1 ez)) (fst (shl_align m2 e2 ez)).
  intros a b. change (Zpos a + Zpos b) with (Zpos (a + b)).
  generalize (a + b)%positive. intros p.
  unfold binary_normalize, binary_round, shl_align.
  destruct (fexp prec emax (Zpos (digits2_pos p) + ez) - ez) as [|k|k] eqn:Ek;
    apply binary_round_aux_nonzero.
  - assert (1 <= Zdigits2 (Zpos p)) by (cbn; lia). lia.
  - assert (1 <= Zdigits2 (Zpos p)) by (cbn; lia). lia.
  - assert (1 <= Zdigits2 (Zpos (Pos.iter xO p k))) by (cbn; lia).
    unfold fexp in *. lia.
Qed.

(** The square of a float, as a binary64 value. *)
Lemma SFmul_self x :
  match Prim2SF (x * x) with
  | S754_zero s | S754_infinity s | S754_finite s _ _ => s = false
  | S754_nan => True
  end.
Proof.
  rewrite mul_spec. unfold SF64mul.
  destruct (Prim2SF x) as [s|s| |s m e]; cbn [SFmul];
    try (destruct s; reflexivity); try exact I.
  assert (Hs : xorb s s = false) by (destruct s; reflexivity).
  rewrite Hs.
  pose proof (binary_round_aux_sign false (m * m) (e + e) loc_Exact) as H.
  destruct (binary_round_aux prec emax false (Zpos (m * m)) (e + e) loc_Exact);
    cbn [has_sign] in H; try exact I; exact H.
Qed.

Lemma sqrt_zero_inv s :
  is_zero (sqrt s) = true -> is_zero s = true.
Proof.
  rewrite !is_zero_spec, sqrt_spec.
  destruct (Prim2SF s) as [sg|sg| |sg m e] eqn:Es; try reflexivity.
  - destruct sg; discriminate.
  - discriminate.
  - destruct sg; [discriminate|].
    pose proof (SFsqrt_positive m e (valid_exponent _ _ _ _ Es)) as H.
    unfold SF64sqrt.
    destruct (SFsqrt prec emax (S754_finite false m e));
      cbn in H |- *; try discriminate; contradiction.
Qed.

Lemma add_squares_zero_inv x y :
  is_zero (x * x + y * y) = true ->
  Prim2SF (x * x) = S754_zero false /\ Prim2SF (y * y) = S754_zero false.
Proof.
  rewrite is_zero_spec, add_spec. unfold SF64add.
  pose proof (SFmul_self x) as Hx. pose proof (SFmul_self y) as Hy.
  destruct (Prim2SF (x * x)%float) as [sx|sx| |sx mx ex] eqn:Ex;
    destruct (Prim2SF (y * y)%float) as [sy|sy| |sy my ey] eqn:Ey;
    subst; try (intros _; split; reflexivity);
    try (cbn [SFadd]; discriminate).
  pose proof (SFadd_positive mx ex my ey (valid_exponent _ _ _ _ Ex)
                (valid_exponent _ _ _ _ Ey)) as H.
  destruct (SFadd prec emax (S754_finite false mx ex) (S754_finite false my ey));
    try discriminate; contradiction.
Qed.

(** The fused step [d + x * x] when [d] is +0: the rounded square. *)
Lemma fma_self_zero x d :
  Prim2SF d = S754_zero false -> fma x x d = (x * x)%float.
Proof.
  intros Hd. rewrite <- (SF2Prim_Prim2SF (x * x)). unfold fma.
  f_equal. rewrite mul_spec, Hd.
  destruct (Prim2SF x) as [[]|[]| |s m e]; reflexivity.
Qed.

Lemma norm_zero_norm_1d x y :
  is_zero (Vec.norm (x, y)) = true -> is_zero (Vec.norm_1d (x, y)) = true.
Proof.
  unfold Vec.norm, Vec.norm_1d, Vec.dot. cbn [fst snd].
  intros [Hx Hy]%sqrt_zero_inv%add_squares_zero_inv.
  rewrite (fma_self_zero x 0 eq_refl), (fma_self_zero y _ Hx).
  rewrite is_zero_spec, sqrt_spec, Hy. reflexivity.
Qed.

(** The two summations differ in the last place: the norm of the
    floats nearest to (0.1, 0.4) as the acceleration function computes
    it, and as the aphelion search does. *)
Lemma norm_1d_last_place :
  let r : vec := (0x1.999999999999ap-4, 0x1.999999999999ap-2)%float in
  Vec.norm_1d r = 0x1.a634bd77fe1a5p-2%float
  /\ Vec.norm r = 0x1.a634bd77fe1a6p-2%float.
Proof. split; reflexivity. Qed.
End FusedNorm.

(** ** The acceleration function *)

Section AccelerationFacts.
Local Open Scope float_scope.
Variable pow : float -> float -> float.

(** What C's [pow] does at a zero base with exponent 3: the result is a
    zero (of the same sign). *)
Hypothesis pow_zero : forall x, is_zero x = true -> is_zero (pow x 3) = true.

(** C4. The function that [create_acceleration_fn(G, M)] returns maps every
    position [r = (x, y)], in particular every one of positive norm, to
    [-(G*M / |r|^3) * r], component by component, where [|r|] is the
    square root of the dot product of [r] with itself, accumulated from
    0 with a fused multiply-add, and the cube is C's [pow]; it never
    raises.  It is a function of [r] and of the two captured constants
    alone: the callable has no access to the arrays, and a call made
    through the store leaves both arrays as they are. *)
Theorem acceleration_fn_value (G M : float) (r : vec) :
  let norm := sqrt (fma (snd r) (snd r) (fma (fst r) (fst r) 0)) in
  let q := G * M / pow norm 3 in
  create_acceleration_fn pow G M r = Ok (- q * fst r, - q * snd r)
  /\ forall st,
      call (create_acceleration_fn pow G M) r st
      = (Ok (- q * fst r, - q * snd r), record_calls st [r]).
Proof. split; [|intros st]; reflexivity. Qed.

(** The function never raises: it is a total function of the
    position. *)
Lemma acceleration_fn_pure G M :
  exists a, create_acceleration_fn pow G M = pure_fn a.
Proof.
  exists (fun r_vec => ((- (G * M / pow (Vec.norm_1d r_vec) 3)) ~* r_vec)%V).
  reflexivity.
Qed.

(** A NaN component of the first stage is a NaN component of the
    velocity either stepper computes. *)
Lemma formula_of_nan method dt (a : vec -> vec) r v :
  accepted method ->
  (is_nan (fst (a r)) = true ->
   is_nan (fst (snd (formula_of method dt a (r, v)))) = true)
  /\ (is_nan (snd (a r)) = true ->
      is_nan (snd (snd (formula_of method dt a (r, v)))) = true).
Proof.
  intros [-> | ->]; cbn [formula_of String.eqb Ascii.eqb Bool.eqb];
    cbn [euler_formula rk4_formula snd fst Vec.add Vec.mulr Vec.mull];
    split; intros H.
  - now apply nan_mul_add.
  - now apply nan_mul_add.
  - now apply nan_add_r, nan_mul_r, nan_add_l, nan_add_l, nan_add_l.
  - now apply nan_add_r, nan_mul_r, nan_add_l, nan_add_l, nan_add_l.
Qed.

(** C8, as the code has it.  At a position whose norm is computed as
    zero, by the dot product of the acceleration function or by the
    sum of the rounded squares, the quotient [G*M / norm**3] is an
    infinity or a NaN, not an exception: the
    acceleration function returns a vector with no finite component,
    NaN in every component where [r] is zero.  Nothing replaces that
    value: an Euler step from such a position returns a velocity with
    the same NaN components, and [run_integration] from such a row 0,
    with either method, returns normally and leaves them in row 1 of
    the velocities. *)
Theorem acceleration_fn_zero_norm (G M : float) (r : vec) :
  is_zero (Vec.norm r) = true \/ is_zero (Vec.norm_1d r) = true ->
  exists ax ay,
    create_acceleration_fn pow G M r = Ok (ax, ay)
    /\ is_finite ax = false /\ is_finite ay = false
    /\ (is_zero (fst r) = true -> is_nan ax = true)
    /\ (is_zero (snd r) = true -> is_nan ay = true)
    /\ (forall v dt st,
        fst (euler_step r v dt (create_acceleration_fn pow G M) st)
        = Ok ((r + v *~ dt)%V, (v + (ax, ay) *~ dt)%V)
        /\ (is_nan ax = true -> is_nan (fst v + ax * dt) = true)
        /\ (is_nan ay = true -> is_nan (snd v + ay * dt) = true))
    /\ forall method dt v post_r post_v c,
        accepted (lower method) ->
        length post_v = length post_r -> (1 <= length post_r)%nat ->
        exists r' v' c' v1,
          run_integration method dt (create_acceleration_fn pow G M)
            (mkStore (r :: post_r) (v :: post_v) c)
          = (Ok tt, mkStore r' v' c')
          /\ v' !! 1%nat = Some v1
          /\ (is_nan ax = true -> is_nan (fst v1) = true)
          /\ (is_nan ay = true -> is_nan (snd v1) = true).
Proof.
  intros Hz. destruct r as [x y].
  assert (Hz1 : is_zero (Vec.norm_1d (x, y)) = true).
  { destruct Hz as [Hz|Hz]; [apply norm_zero_norm_1d|]; exact Hz. }
  apply pow_zero in Hz1.
  destruct (acceleration_fn_pure G M) as [a Ha].
  assert (Har : a (x, y)
                = ((- (G * M / pow (Vec.norm_1d (x, y)) 3)) ~* (x, y))%V).
  { assert (H : pure_fn a (x, y) = create_acceleration_fn pow G M (x, y))
      by now rewrite Ha.
    unfold pure_fn, create_acceleration_fn, np_truediv in H.
    cbn [rbind] in H. congruence. }
  unfold create_acceleration_fn at 1, np_truediv. cbn [rbind Vec.mull fst snd].
  cbn [Vec.mull fst snd] in Har.
  set (d := pow (Vec.norm_1d (x, y)) 3) in *.
  destruct (scaled_by_zero_quotient (G * M) d x Hz1) as [Hfx Hnx].
  destruct (scaled_by_zero_quotient (G * M) d y Hz1) as [Hfy Hny].
  eexists _, _. split; [reflexivity|].
  split; [assumption|]. split; [assumption|].
  split; [assumption|]. split; [assumption|]. split.
  - intros v dt st. rewrite Ha.
    unfold euler_step, bind, call, pure_fn, ret. cbn [fst].
    rewrite Har. repeat split; apply nan_mul_add.
  - intros method dt v post_r post_v c Hm Hlen Hpos.
    rewrite Ha.
    rewrite (run_integration_rows method dt a (x, y) v post_r post_v c Hm Hlen).
    destruct post_r as [|p post_r]; [cbn in Hpos; lia|].
    destruct (formula_of_nan (lower method) dt a (x, y) v Hm) as [H1 H2].
    rewrite Har in H1, H2. cbn [fst snd] in H1, H2.
    eexists _, _, _, _. split; [reflexivity|].
    split; [reflexivity|]. split; assumption.
Qed.
End AccelerationFacts.

Section AccelerationExamples.
Local Open Scope float_scope.

Lemma acceleration_fn_zero_norm_witness :
  let r : vec := (0, 0) in
  exists ax ay,
    create_acceleration_fn cube G_main M_sun r = Ok (ax, ay)
    /\ is_finite ax = false /\ is_finite ay = false
    /\ (is_zero (fst r) = true -> is_nan ax = true)
    /\ (is_zero (snd r) = true -> is_nan ay = true)
    /\ (forall v dt st,
        fst (euler_step r v dt (create_acceleration_fn cube G_main M_sun) st)
        = Ok ((r + v *~ dt)%V, (v + (ax, ay) *~ dt)%V)
        /\ (is_nan ax = true -> is_nan (fst v + ax * dt) = true)
        /\ (is_nan ay = true -> is_nan (snd v + ay * dt) = true))
    /\ forall method dt v post_r post_v c,
        accepted (lower method) ->
        length post_v = length post_r -> (1 <= length post_r)%nat ->
        exists r' v' c' v1,
          run_integration method dt (create_acceleration_fn cube G_main M_sun)
            (mkStore (r :: post_r) (v :: post_v) c)
          = (Ok tt, mkStore r' v' c')
          /\ v' !! 1%nat = Some v1
          /\ (is_nan ax = true -> is_nan (fst v1) = true)
          /\ (is_nan ay = true -> is_nan (snd v1) = true).
Proof.
  exact (acceleration_fn_zero_norm cube (fun x => cube_zero x)
           G_main M_sun (0, 0) (or_intror eq_refl)).
Defined.

(** C8, the claim as written fails at the origin: the call returns. *)
Lemma acceleration_fn_origin_returns :
  create_acceleration_fn cube G_main M_sun (0, 0) = Ok (nan, nan).
Proof. reflexivity. Qed.
End AccelerationExamples.

(** ** The calls of main.py, one after the other *)

Section Pipeline.
Local Open Scope Z_scope.
Variable pow : float -> float -> float.

Lemma get_time_settings_grid (cfg planet_cfg : gmap string json) (days step : Z) :
  time_step_of cfg = Ok (JNum (PyInt step)) ->
  sim_days_of cfg planet_cfg = JNum (PyInt days) ->
  0 < step < 2 ^ 52 ->
  0 < days * 24 * 3600 < 2 ^ 52 ->
  get_time_settings cfg planet_cfg
  = Ok (JNum (PyInt step),
        map (fun i => PyInt (Z.of_nat i * step))
            (seq 0 (Z.to_nat (Zceil_div (days * 24 * 3600) step)))).
Proof.
  intros Hstep Hdays Hs Ht.
  unfold get_time_settings. rewrite Hstep, Hdays.
  cbn [rbind as_number arange_step py_mul].
  rewrite np_arange_values by assumption. reflexivity.
Qed.

(** X21. The calls of main.py from get_initial_conditions to
    compute_aphelion fit together. For a configuration whose planet
    has a positive distance and speed, an integer period and an
    integer time step with 0 < step < t_max = days * 24 * 3600 < 2^48,
    and a method that lowercases to 'euler' or 'rk4': every call
    returns, the time grid has N >= 2 points, both arrays end with N
    rows, row 0 being the initial state, the acceleration function has
    been called once (Euler) or four times (RK4) per step, and the
    aphelion index lies between 1 and N-1, with the distance the norm
    of that row of r and the velocity that row of v. The time step, a
    Python int, enters the float64 arithmetic of the steppers as the
    float of the same value. *)
Theorem simulation_runs (cfg planets entry : gmap string json)
        (planet_name method : string) (p w : pynum) (days step : Z) :
  cfg !! "planets" = Some (JObj planets) ->
  planets !! planet_name = Some (JObj entry) ->
  entry !! "position_at_perihelion" = Some (JNum p) ->
  entry !! "velocity_at_perihelion" = Some (JNum w) ->
  positive_number p -> positive_number w ->
  time_step_of cfg = Ok (JNum (PyInt step)) ->
  sim_days_of cfg entry = JNum (PyInt days) ->
  0 < step < days * 24 * 3600 ->
  days * 24 * 3600 < 2 ^ 48 ->
  accepted (lower method) ->
  exists r0 v0 t r v r' v' calls d vel idx pos,
    get_initial_conditions cfg planet_name = Ok (r0, v0)
    /\ get_time_settings cfg entry = Ok (JNum (PyInt step), t)
    /\ initialize_arrays r0 v0 t = Ok (r, v)
    /\ run_integration method (Z2F step)
         (create_acceleration_fn pow G_main M_sun) (mkStore r v [])
       = (Ok tt, mkStore r' v' calls)
    /\ compute_aphelion r' v' = Ok (d, vel, idx)
    /\ (2 <= length t)%nat
    /\ length r' = length t /\ length v' = length t
    /\ length calls = (evals_per_step (lower method) * (length t - 1))%nat
    /\ r' !! 0%nat = Some r0 /\ v' !! 0%nat = Some v0
    /\ (1 <= idx < length t)%nat
    /\ r' !! idx = Some pos /\ v' !! idx = Some vel /\ d = Vec.norm pos.
Proof.
  intros Hp He Hpos Hvel Hpp Hpw Hstep Hdays Hs Ht Hm.
  assert (H48 : 2 ^ 48 < 2 ^ 52) by (apply Z.pow_lt_mono_r; lia).
  destruct (positive_number_float p Hpp) as (xp & Hxp & _).
  destruct (negated_number_float w Hpw) as (xw & Hxw & _).
  destruct (py_mul_float p 1e9 xp Hxp) as (x & Hx & ->).
  destruct (py_mul_float (py_neg w) 1e3 xw Hxw) as (y & Hy & ->).
  pose proof (get_time_settings_grid cfg entry days step Hstep Hdays
                ltac:(lia) ltac:(lia)) as Hgrid.
  remember (days * 24 * 3600) as total eqn:Etotal.
  pose proof (Zceil_div_bounds total step ltac:(lia)) as [Hklo Hkhi].
  remember (Zceil_div total step) as q eqn:Eq.
  assert (Hq : 2 <= q < 2 ^ 48) by nia.
  destruct (Z.to_nat q) as [|[|n]] eqn:EN; try lia.
  destruct (acceleration_fn_pure pow G_main M_sun) as [a Ha].
  set (f := formula_of (lower method) (Z2F step) a).
  set (r0 := ((xp * 1e9)%float, 0%float)).
  set (v0 := (0%float, (xw * 1e3)%float)).
  set (r' := map fst (orbit f (S (S n)) (r0, v0))).
  set (v' := map snd (orbit f (S (S n)) (r0, v0))).
  assert (Hlr : length r' = S (S n)) by (unfold r'; now rewrite length_map, orbit_length).
  assert (Hlv : length v' = S (S n)) by (unfold v'; now rewrite length_map, orbit_length).
  destruct (aphelion_candidates r' ltac:(lia) ltac:(lia))
    as (i0 & j & Hi0 & Hc & Hj & Hcut & Hi0lt & Hjlt).
  set (c := Nat.max 1 (length r' / 20)) in *.
  set (idx := if Nat.eqb i0 0 then (j + c)%nat else i0).
  assert (Hidx : (1 <= idx < S (S n))%nat).
  { unfold idx. destruct (Nat.eqb_spec i0 0); lia. }
  destruct (lookup_lt_is_Some_2 r' idx ltac:(lia)) as [pos Hposi].
  destruct (lookup_lt_is_Some_2 v' idx ltac:(lia)) as [vel Hveli].
  exists r0, v0, (map (fun i => PyInt (Z.of_nat i * step)) (seq 0 (S (S n)))),
    (r0 :: replicate (S n) Vec.zeros), (v0 :: replicate (S n) Vec.zeros),
    r', v',
    (concat (map (points_of (lower method) (Z2F step) a) (orbit f (S n) (r0, v0)))),
    (Vec.norm pos), vel, idx, pos.
  rewrite length_map, length_seq.
  split.
  { unfold get_initial_conditions. cbn [subscript]. rewrite Hp.
    cbn [rbind subscript]. rewrite He. cbn [rbind subscript].
    rewrite Hpos. cbn [rbind]. rewrite Hvel. cbn [rbind as_number].
    rewrite Hx. cbn [rbind to_float]. rewrite Hy. reflexivity. }
  split.
  { exact Hgrid. }
  split.
  { apply initialize_arrays_ok. now rewrite length_map, length_seq. }
  split.
  { rewrite Ha. apply run_integration_orbit. exact Hm. }
  split.
  { exact (compute_aphelion_eval r' v' i0 c j pos vel Hi0 Hc Hj Hposi Hveli). }
  split; [lia|]. split; [exact Hlr|]. split; [exact Hlv|].
  split.
  { unfold f. rewrite orbit_calls_length. lia. }
  split; [reflexivity|]. split; [reflexivity|].
  split; [exact Hidx|]. repeat split; assumption.
Qed.
End Pipeline.

Lemma simulation_runs_witness :
  let method := "RK4"%string in
  exists r0 v0 t r v r' v' calls d vel idx pos,
    get_initial_conditions cfg_solar "earth" = Ok (r0, v0)
    /\ get_time_settings cfg_solar earth_entry = Ok (JNum (PyInt 3600), t)
    /\ initialize_arrays r0 v0 t = Ok (r, v)
    /\ run_integration method (Z2F 3600)
         (create_acceleration_fn cube G_main M_sun) (mkStore r v [])
       = (Ok tt, mkStore r' v' calls)
    /\ compute_aphelion r' v' = Ok (d, vel, idx)
    /\ (2 <= length t)%nat
    /\ length r' = length t /\ length v' = length t
    /\ length calls = (evals_per_step (lower method) * (length t - 1))%nat
    /\ r' !! 0%nat = Some r0 /\ v' !! 0%nat = Some v0
    /\ (1 <= idx < length t)%nat
    /\ r' !! idx = Some pos /\ v' !! idx = Some vel /\ d = Vec.norm pos.
Proof.
  exact (simulation_runs cube cfg_solar solar_planets earth_entry
           "earth" "RK4" _ _ 365 3600
           eq_refl eq_refl eq_refl eq_refl eq_refl (conj eq_refl eq_refl)
           eq_refl eq_refl (conj eq_refl eq_refl) eq_refl
           (or_intror eq_refl)).
Defined.
